(** * real-time-stocks-go: the stock ticker simulator, embedded in Rocq

    The development follows [stocks.go] (and its variant with a
    configuration file and an HTTP surface, which has the same
    [UpdateValuesAndPublish], [RunCycle], [SetUpChannelGroup],
    [GrantPermissions], [handleResponse], [Roundn] and [Randn]).

    - Part 1: Go's [int] and [float64], and the helpers [Roundn], [Randn].
    - Part 2: [Stock], [StreamMessage] and the price update of
      [UpdateValuesAndPublish].
    - Part 3: [handleResponse] as a transition system over what the goroutine
      receives at its blocking points.
    - Part 4: the goroutines of [SetUpChannelGroup], [GrantPermissions],
      [RunCycle] and [UpdateValuesAndPublish] as one machine stepping under
      an arbitrary scheduler and environment.
    - Part 5: the properties the theorems are about, named, and the whole
      program: [main] and [RunStocks] over the goroutines of Part 4.
    - Part 6: the theorems; rounding; Part 7: further theorems. *)

From Stdlib Require Import ZArith List String Ascii Bool Lia.
From Stdlib Require Import Floats.PrimFloat Floats.SpecFloat Floats.FloatOps.
From Stdlib Require Import Floats.FloatAxioms.
From Stdlib Require Import Numbers.DecimalString.
Import ListNotations.

Local Open Scope Z_scope.

(* ================================================================= *)
(** * Part 1: numbers *)

(** ** Go's [int] (64 bits, two's complement, wrapping arithmetic) *)

Definition int_min : Z := - 2 ^ 63.
Definition int_max : Z := 2 ^ 63 - 1.

Definition is_int (z : Z) : Prop := int_min <= z <= int_max.

(** The value an integer operation leaves in a 64-bit register. *)
Definition wrap (z : Z) : Z := (z + 2 ^ 63) mod 2 ^ 64 - 2 ^ 63.

Definition int_add (a b : Z) : Z := wrap (a + b).
Definition int_sub (a b : Z) : Z := wrap (a - b).
Definition int_mul (a b : Z) : Z := wrap (a * b).
(** [a / b] of Go truncates toward zero; the program only divides by 2. *)
Definition int_div (a b : Z) : Z := wrap (Z.quot a b).

(** ** The random source

    [rand.Intn(n)] of math/rand panics when [n <= 0] and otherwise returns an
    element of [[0, n)] computed from the state of the global source.  The
    state is reseeded from the clock before the draws of every tick, so the
    model takes the sample the source delivers as an input: [sample] ranges
    over the non-negative integers the generator produces, and the library
    reduces it into the requested range.  [None] is the panic. *)
Definition Intn (n : Z) (sample : Z) : option Z :=
  if n <=? 0 then None else Some (sample mod n).

(** [func Randn(min int, max int) int { return rand.Intn(max-min) + min }] *)
Definition Randn (min max : Z) (sample : Z) : option Z :=
  match Intn (int_sub max min) sample with
  | Some k => Some (int_add k min)
  | None => None
  end.

(** ** Go's [float64]: Rocq's primitive binary64 floats *)

(** [float64(i)] for an [int]: the nearest binary64 number, ties to even. *)
Definition float64_of_int (z : Z) : float :=
  SF2Prim (binary_normalize prec emax z 0 false).

(** [math.Floor]: the greatest integral value not above [x]; zeros,
    infinities and NaN are returned as they are. *)
Definition Floor (x : float) : float :=
  match Prim2SF x with
  | S754_finite s m e =>
      if 0 <=? e then x
      else
        let n := Z.shiftr (Z.pos m) (- e) in
        if Z.shiftl n (- e) =? Z.pos m then x
        else if s then float64_of_int (- (n + 1)) else float64_of_int n
  | _ => x
  end.

(** [math.Pow(10, float64(p))] for an [int] exponent.  For [0 <= p <= 22] the
    power of ten is a binary64 number and [math.Pow] returns it exactly; the
    program calls [Roundn] with precision 2 only, where the value is 100. *)
Definition Pow10 (p : Z) : float :=
  if 0 <=? p then float64_of_int (10 ^ p)
  else PrimFloat.div 1 (float64_of_int (10 ^ (- p))).

(** [[
func Roundn(val float64, precision int) float64 {
	shift := math.Pow(10, float64(precision))
	return math.Floor(val*shift+.5) / shift
}
]] *)
Definition Roundn (val : float) (precision : Z) : float :=
  let shift := Pow10 precision in
  PrimFloat.div (Floor (PrimFloat.add (PrimFloat.mul val shift) 0.5)) shift.

(** ** [fmt.Sprintf("%.2f", x)]

    The exact value of [x] rounded to two decimals (ties to even on the exact
    value), with the sign of [x], also for a negative zero. *)

Definition decimal (n : Z) : string :=
  NilZero.string_of_uint (N.to_uint (Z.to_N n)).

Definition two_digits (n : Z) : string :=
  (decimal (n / 10) ++ decimal (n mod 10))%string.

(** [round(m * 2^e * 100)] to the nearest integer, ties to even. *)
Definition hundredths (m : positive) (e : Z) : Z :=
  if 0 <=? e then Z.pos m * 2 ^ e * 100
  else
    let num := Z.pos m * 100 in
    let den := 2 ^ (- e) in
    let q := num / den in
    let r := num mod den in
    if (den <? 2 * r) || ((den =? 2 * r) && Z.odd q) then q + 1 else q.

Definition sign_string (s : bool) : string := if s then "-"%string else ""%string.

Definition Sprintf_2f (x : float) : string :=
  match Prim2SF x with
  | S754_nan => "NaN"
  | S754_infinity s => if s then "-Inf" else "+Inf"
  | S754_zero s => sign_string s ++ "0.00"
  | S754_finite s m e =>
      let h := hundredths m e in
      sign_string s ++ decimal (h / 100) ++ "." ++ two_digits (h mod 100)
  end%string.

(* ================================================================= *)
(** * Part 2: the data model and the price update *)

Record Auths := mkAuths {
  Pub : string;        (* publish_key *)
  Sub : string;        (* subscribe_key *)
  Secret : string;     (* secret_key *)
  Auth : string        (* auth_key *)
}.

Record Stock := mkStock {
  Name : string;
  InitialPrice : float;
  CurrentPrice : float;
  MinTrade : Z;
  MaxTrade : Z;
  Volatility : Z;
  MaxDelta : Z
}.

Record StreamMessage := mkStreamMessage {
  Time : string;         (* "time" *)
  Price : string;        (* "price" *)
  Delta : string;        (* "delta" *)
  Percentage : string;   (* "perc" *)
  Vol : Z                (* "vol" *)
}.

Definition set_CurrentPrice (p : float) (s : Stock) : Stock :=
  mkStock (Name s) (InitialPrice s) p (MinTrade s) (MaxTrade s)
          (Volatility s) (MaxDelta s).

(** Lines 204-206 of [UpdateValuesAndPublish]: a current price that compares
    equal to zero (the value of a stock loaded without one) is replaced by the
    initial price before anything is computed. *)
Definition current_price (s : Stock) : float :=
  if PrimFloat.eqb (CurrentPrice s) 0 then InitialPrice s else CurrentPrice s.

(** [change := float64(rand.Intn(stock.Volatility)-stock.Volatility/2) / 100] *)
Definition change_of (volatility k : Z) : float :=
  PrimFloat.div (float64_of_int (int_sub k (int_div volatility 2))) 100.

(** [Roundn((1-stock.InitialPrice/stock.CurrentPrice)*100, 2)] *)
Definition percentage_of (initial price : float) : float :=
  Roundn (PrimFloat.mul (PrimFloat.sub 1 (PrimFloat.div initial price)) 100) 2.

(** [math.Abs(percentage) > float64(stock.MaxDelta)/100] *)
Definition exceeds (percentage : float) (maxDelta : Z) : bool :=
  PrimFloat.ltb (PrimFloat.div (float64_of_int maxDelta) 100)
                (PrimFloat.abs percentage).

(** The price a tick computes from the draw [k]. *)
Definition new_price (stock : Stock) (k : Z) : float :=
  PrimFloat.add (current_price stock) (change_of (Volatility stock) k).

(** Lines 204-225 of [UpdateValuesAndPublish]: the new price, the message and
    the mean reversion.  [clock] is [time.Now().Format("03:04:05pm")],
    [sample1] and [sample2] are what the random source delivers to the two
    draws.  [None] is the panic of a draw from an empty range. *)
Definition UpdateValues (stock : Stock) (clock : string) (sample1 sample2 : Z)
  : option (StreamMessage * Stock) :=
  let stock := set_CurrentPrice (current_price stock) stock in
  match Intn (Volatility stock) sample1 with
  | None => None
  | Some k =>
      let change := change_of (Volatility stock) k in
      let stock :=
        set_CurrentPrice (PrimFloat.add (CurrentPrice stock) change) stock in
      let delta := PrimFloat.sub (CurrentPrice stock) (InitialPrice stock) in
      let percentage :=
        percentage_of (InitialPrice stock) (CurrentPrice stock) in
      match Randn (Volatility stock) 1000 sample2 with
      | None => None
      | Some r =>
          let vol := int_mul r 10 in
          let streamMessage :=
            {| Time := clock;
               Price := Sprintf_2f (CurrentPrice stock);
               Delta := Sprintf_2f delta;
               Percentage := Sprintf_2f percentage;
               Vol := vol |} in
          let stock :=
            if exceeds percentage (MaxDelta stock)
            then set_CurrentPrice (InitialPrice stock) stock
            else stock in
          Some (streamMessage, stock)
      end
  end.

Arguments float64_of_int : simpl never.
Arguments Floor : simpl never.
Arguments Roundn : simpl never.
Arguments Sprintf_2f : simpl never.
Arguments current_price : simpl never.
Arguments new_price : simpl never.
Arguments change_of : simpl never.
Arguments percentage_of : simpl never.
Arguments exceeds : simpl never.
Arguments UpdateValues : simpl never.

(* ================================================================= *)
(** * Part 3: [handleResponse]

    [[
await:
	for {
		select {
		case success, ok := <-successChannel:
			if !ok { break await }
			fmt.Printf("%s\n", success)
			break await
		case failure, ok := <-errorChannel:
			if !ok { break await }
			fmt.Printf("ERROR: %s\n", failure)
			break await
		case <-time.After(time.Second * 3):
			fmt.Println("Request timeout")
			break await
		}
	}
	finishedChannel <- true
    ]]

    Every case of the select leaves the loop, so the select is entered once:
    the goroutine arms a timer, blocks until one case can proceed, and then
    blocks on the send that signals completion. *)

(** [time.Duration] counts nanoseconds in an int64. *)
Definition Nanosecond : Z := 1.
Definition Microsecond : Z := 1000 * Nanosecond.
Definition Second : Z := 1000000000 * Nanosecond.

(** What a receive [v, ok := <-ch] yields: a value, or [ok = false] on a closed
    channel. *)
Inductive Recv :=
| Value (payload : string)
| Closed.

(** What the goroutine consumes at its blocking points. *)
Inductive HInput :=
| InEnter (now : Z)       (* control reaches the select at clock reading [now] *)
| InSuccess (r : Recv)    (* the case on successChannel proceeds *)
| InFailure (r : Recv)    (* the case on errorChannel proceeds *)
| InTimer (now : Z)       (* the case on the timer proceeds, at clock reading [now] *)
| InFinished.             (* a receiver takes the value sent on finishedChannel *)

Inductive HControl :=
| HStart                  (* started by [go], not yet at the select *)
| HSelect (deadline : Z)  (* blocked in the select; the timer fires at [deadline] *)
| HFinish                 (* after the loop, blocked on [finishedChannel <- true] *)
| HExit.

Record Awaiter := mkAwaiter {
  h_timeout : Z;          (* the parameter [timeout uint16] *)
  h_control : HControl
}.

Definition newline : string := String (ascii_of_nat 10) EmptyString.

(** One transition: the next state and what is written to standard output. *)
Definition handleResponse (h : Awaiter) (i : HInput)
  : option (Awaiter * list string) :=
  let goto c := mkAwaiter (h_timeout h) c in
  match h_control h, i with
  | HStart, InEnter now => Some (goto (HSelect (now + Second * 3)), [])
  | HSelect _, InSuccess (Value success) =>
      Some (goto HFinish, [(success ++ newline)%string])
  | HSelect _, InSuccess Closed => Some (goto HFinish, [])
  | HSelect _, InFailure (Value failure) =>
      Some (goto HFinish, [("ERROR: " ++ failure ++ newline)%string])
  | HSelect _, InFailure Closed => Some (goto HFinish, [])
  | HSelect deadline, InTimer now =>
      if deadline <=? now
      then Some (goto HFinish, [("Request timeout" ++ newline)%string])
      else None
  | HFinish, InFinished => Some (goto HExit, [])
  | _, _ => None
  end.

Arguments handleResponse : simpl never.

(** A run of the goroutine over a sequence of inputs, with its output. *)
Fixpoint handleResponse_run (h : Awaiter) (ins : list HInput)
  : option (Awaiter * list string) :=
  match ins with
  | [] => Some (h, [])
  | i :: ins' =>
      match handleResponse h i with
      | None => None
      | Some (h', out) =>
          match handleResponse_run h' ins' with
          | None => None
          | Some (h'', out') => Some (h'', out ++ out')
          end
      end
  end.

(** The inputs that end the wait. *)
Definition terminal (i : HInput) : bool :=
  match i with
  | InSuccess _ | InFailure _ | InTimer _ => true
  | _ => false
  end.

(** The Outcome of a request, as the specification names it. *)
Inductive Outcome :=
| Success (payload : string)
| Failure (payload : string)
| Timeout.

(** The Outcome a terminal input stands for; a closed channel carries none. *)
Definition outcome_of (i : HInput) : option Outcome :=
  match i with
  | InSuccess (Value p) => Some (Success p)
  | InFailure (Value p) => Some (Failure p)
  | InTimer _ => Some Timeout
  | _ => None
  end.

(** What reporting an Outcome writes to the diagnostics sink. *)
Definition report (o : Outcome) : string :=
  match o with
  | Success p => p ++ newline
  | Failure p => "ERROR: " ++ p ++ newline
  | Timeout => "Request timeout" ++ newline
  end%string.

(* ================================================================= *)
(** * Part 4: the goroutines *)

(** The calls on the messaging client, each taking [successChannel] and
    [errorChannel] as its last two arguments. *)
Inductive Request :=
| ChannelGroupRemoveGroup (group : string)
| ChannelGroupAddChannel (group channels : string)
| GrantChannelGroup (group : string) (read manage : bool) (ttl : Z)
                    (authKey : string)
| GrantSubscribe (channels : string) (read write : bool) (ttl : Z)
                 (authKey : string)
| Publish (channel : string) (message : StreamMessage).

(** The statements of a sequential goroutine at which other goroutines can
    be observed: starting a goroutine, a channel operation, a sleep.  The
    computation between two of them is one step. *)
Inductive Stmt :=
| UpdateValuesStmt              (* lines 204-225 *)
| MakeChans                     (* errorChannel, successChannel, done := make(chan ..) *)
| GoRequest (r : Request)       (* go pubnub.<r>(.., successChannel, errorChannel) *)
| GoPublish                     (* go pubnub.Publish(stock.Name, streamMessage, ..) *)
| GoHandleResponse (timeout : Z)  (* go handleResponse(.., timeout, done) *)
| SleepRandn                    (* sleep := Randn(..); time.Sleep(..) is entered *)
| Sleeping (wake : Z)           (* inside time.Sleep until the clock reads wake *)
| RecvDone                      (* <-done *)
| SendCycle.                    (* cycle <- the value received from done *)

(** The control of [RunCycle]:
    [[
	for {
		go stock.UpdateValuesAndPublish(pubnub, cycle)
		<-cycle
		fmt.Printf("Iteration #%d", i)
		i++
	}
    ]] *)
Inductive Loop :=
| LoopOff                 (* no RunCycle: the machine runs the bootstrap *)
| LoopGo (i : Z)          (* about to start the goroutine of iteration i *)
| LoopRecv (i : Z).       (* blocked on <-cycle *)

(** What an execution leaves in its history. *)
Inductive Event :=
| EvUpdate (message : StreamMessage)  (* the price update of a tick is done *)
| EvCall (r : Request)                (* a request is handed to the client *)
| EvAwait (timeout : Z)               (* a handleResponse goroutine is started *)
| EvSelect (now : Z)                  (* handleResponse reaches its select *)
| EvResolved (now : Z) (i : HInput)   (* handleResponse leaves its select *)
| EvSleep (d : Z)                     (* time.Sleep(d) is entered *)
| EvWake                              (* time.Sleep returns *)
| EvDone                              (* the value on done is received *)
| EvCycle (i : Z)                     (* RunCycle receives from cycle *)
| EvPanic.

(** What the environment supplies to a statement: the formatted clock and
    the samples of the random source. *)
Record Inputs := mkInputs {
  clock : string;
  sample1 : Z;
  sample2 : Z
}.

(** The moves of the scheduler and of the environment. *)
Inductive Action :=
| Advance (d : Z)        (* the clock advances by d nanoseconds *)
| Run (inp : Inputs)     (* the sequential goroutine executes its next statement *)
| Spawn                  (* RunCycle starts the goroutine of the next tick *)
| Enter                  (* handleResponse reaches its select *)
| Answer (k : nat) (ok : bool) (payload : string)
                         (* the k-th outstanding call sends its answer, on
                            successChannel when ok, and the select receives it *)
| Close (g : nat) (side : bool)
                         (* successChannel (side = true) or errorChannel of
                            the g-th set of channels is closed *)
| SeeClosed (side : bool)  (* the select receives from a closed channel *)
| Fire.                  (* the select receives from the timer *)

Record Machine := mkMachine {
  now : Z;                            (* the clock, in nanoseconds *)
  stock : Stock;                      (* *stock, owned by this loop *)
  streamMessage : StreamMessage;      (* the local of the current tick *)
  loop : Loop;
  body : list Stmt;                   (* what the sequential goroutine has left *)
  chans : nat;                        (* the channels made last *)
  closed : list (nat * bool);         (* the channels closed so far *)
  calls : list (nat * Request);       (* calls that have not answered, with
                                         the channels they answer on *)
  awaiter : option (nat * Awaiter);   (* handleResponse and its channels *)
  stdout : list string;               (* newest first *)
  trace : list Event;                 (* newest first *)
  crashed : bool                      (* a goroutine panicked *)
}.

Definition set_now v m := mkMachine v (stock m) (streamMessage m) (loop m)
  (body m) (chans m) (closed m) (calls m) (awaiter m) (stdout m) (trace m)
  (crashed m).
Definition set_stock v m := mkMachine (now m) v (streamMessage m) (loop m)
  (body m) (chans m) (closed m) (calls m) (awaiter m) (stdout m) (trace m)
  (crashed m).
Definition set_streamMessage v m := mkMachine (now m) (stock m) v (loop m)
  (body m) (chans m) (closed m) (calls m) (awaiter m) (stdout m) (trace m)
  (crashed m).
Definition set_loop v m := mkMachine (now m) (stock m) (streamMessage m) v
  (body m) (chans m) (closed m) (calls m) (awaiter m) (stdout m) (trace m)
  (crashed m).
Definition set_body v m := mkMachine (now m) (stock m) (streamMessage m)
  (loop m) v (chans m) (closed m) (calls m) (awaiter m) (stdout m) (trace m)
  (crashed m).
Definition set_chans v m := mkMachine (now m) (stock m) (streamMessage m)
  (loop m) (body m) v (closed m) (calls m) (awaiter m) (stdout m) (trace m)
  (crashed m).
Definition set_closed v m := mkMachine (now m) (stock m) (streamMessage m)
  (loop m) (body m) (chans m) v (calls m) (awaiter m) (stdout m) (trace m)
  (crashed m).
Definition set_calls v m := mkMachine (now m) (stock m) (streamMessage m)
  (loop m) (body m) (chans m) (closed m) v (awaiter m) (stdout m) (trace m)
  (crashed m).
Definition set_awaiter v m := mkMachine (now m) (stock m) (streamMessage m)
  (loop m) (body m) (chans m) (closed m) (calls m) v (stdout m) (trace m)
  (crashed m).
Definition set_stdout v m := mkMachine (now m) (stock m) (streamMessage m)
  (loop m) (body m) (chans m) (closed m) (calls m) (awaiter m) v (trace m)
  (crashed m).
Definition set_trace v m := mkMachine (now m) (stock m) (streamMessage m)
  (loop m) (body m) (chans m) (closed m) (calls m) (awaiter m) (stdout m) v
  (crashed m).
Definition set_crashed v m := mkMachine (now m) (stock m) (streamMessage m)
  (loop m) (body m) (chans m) (closed m) (calls m) (awaiter m) (stdout m)
  (trace m) v.

Notation "m |> f" := (f m) (at level 62, left associativity, only parsing).

Definition emit (e : Event) (m : Machine) : Machine :=
  set_trace (e :: trace m) m.
Definition print (out : list string) (m : Machine) : Machine :=
  set_stdout (rev out ++ stdout m) m.
Definition panic (m : Machine) : Machine :=
  m |> set_crashed true |> emit EvPanic.

Definition is_closed (g : nat) (side : bool) (m : Machine) : bool :=
  existsb (fun c => Nat.eqb (fst c) g && Bool.eqb (snd c) side) (closed m).

Fixpoint remove_nth {A} (k : nat) (l : list A) : list A :=
  match k, l with
  | _, [] => []
  | O, _ :: l' => l'
  | S k', x :: l' => x :: remove_nth k' l'
  end.

(** [fmt.Printf("%d", i)] *)
Definition Sprintf_d (i : Z) : string :=
  if i <? 0 then ("-" ++ decimal (- i))%string else decimal i.

(** The input a select case delivers to [handleResponse]. *)
Definition received (side : bool) (r : Recv) : HInput :=
  if side then InSuccess r else InFailure r.

(** [handleResponse] takes input [i]: its state, standard output and the
    history move on; the goroutine is gone once it has exited. *)
Definition deliver (g : nat) (h : Awaiter) (i : HInput) (m : Machine)
  : option Machine :=
  match handleResponse h i with
  | None => None
  | Some (h', out) => Some (m |> set_awaiter (Some (g, h')) |> print out)
  end.

(** ** The programs *)

(** [stocks.go] fixes these names; the variant reads them from its
    configuration file. *)
Definition CHAT_CHANNEL : string := "stock-chat".
Definition CHANNEL_GROUP : string := "stockblast".
Definition HISTORY_CHANNEL : string := "MSFT".
Definition GRANT_TTL : Z := 1.

Section Program.

(** The globals [LoadConfig] fills in, and the timeout the messaging
    library hands out. *)
Variable auths : Auths.
Variable stocks : list Stock.
Variable GetNonSubscribeTimeout : Z.

Definition stockNames : string := String.concat "," (map Name stocks).
Definition bootstrapAuth : string := (Auth auths ++ "-bootstrap")%string.

Definition SetUpChannelGroup : list Stmt :=
  [ MakeChans;
    (* Remove Group *)
    GoRequest (ChannelGroupRemoveGroup CHANNEL_GROUP);
    GoHandleResponse GetNonSubscribeTimeout;
    RecvDone;
    (* Create it from the scratch *)
    GoRequest (ChannelGroupAddChannel CHANNEL_GROUP stockNames);
    GoHandleResponse GetNonSubscribeTimeout;
    RecvDone ].

Definition GrantPermissions : list Stmt :=
  [ MakeChans;
    (* Allow current Pubnub instance to manage the channel group *)
    GoRequest (GrantChannelGroup CHANNEL_GROUP false true GRANT_TTL
                                 bootstrapAuth);
    GoHandleResponse GetNonSubscribeTimeout;
    RecvDone;
    (* Allow unauthorized users to subscribe to stockblast channel group *)
    GoRequest (GrantChannelGroup CHANNEL_GROUP true false GRANT_TTL "");
    GoHandleResponse GetNonSubscribeTimeout;
    RecvDone;
    (* Unauthorized users can both read and write on chat channel *)
    GoRequest (GrantSubscribe CHAT_CHANNEL true true GRANT_TTL "");
    GoHandleResponse GetNonSubscribeTimeout;
    RecvDone;
    (* Unauthorized users can only read history *)
    GoRequest (GrantSubscribe HISTORY_CHANNEL true false GRANT_TTL "");
    GoHandleResponse GetNonSubscribeTimeout;
    RecvDone;
    (* Allow stock tickers authorized by auths.Auth key to publish to stock
       channels *)
    GoRequest (GrantSubscribe stockNames false true GRANT_TTL (Auth auths));
    GoHandleResponse GetNonSubscribeTimeout;
    RecvDone ].

Definition UpdateValuesAndPublish : list Stmt :=
  [ UpdateValuesStmt;
    MakeChans;
    GoPublish;
    GoHandleResponse GetNonSubscribeTimeout;
    SleepRandn;
    RecvDone;
    SendCycle ].

(** ** The steps *)

(** The sequential goroutine executes the statement at the head of [body]. *)
Definition run_stmt (inp : Inputs) (m : Machine) : option Machine :=
  match body m with
  | [] => None
  | UpdateValuesStmt :: rest =>
      match UpdateValues (stock m) (clock inp) (sample1 inp) (sample2 inp) with
      | None => Some (panic m)
      | Some (msg, st) =>
          Some (m |> set_stock st |> set_streamMessage msg |> set_body rest
                  |> emit (EvUpdate msg))
      end
  | MakeChans :: rest =>
      Some (m |> set_chans (S (chans m)) |> set_body rest)
  | GoRequest r :: rest =>
      Some (m |> set_calls ((chans m, r) :: calls m) |> set_body rest
              |> emit (EvCall r))
  | GoPublish :: rest =>
      let r := Publish (Name (stock m)) (streamMessage m) in
      Some (m |> set_calls ((chans m, r) :: calls m) |> set_body rest
              |> emit (EvCall r))
  | GoHandleResponse timeout :: rest =>
      match awaiter m with
      | Some _ => None
      | None =>
          Some (m |> set_awaiter (Some (chans m, mkAwaiter timeout HStart))
                  |> set_body rest |> emit (EvAwait timeout))
      end
  | SleepRandn :: rest =>
      match Randn (MinTrade (stock m)) (MaxTrade (stock m)) (sample1 inp) with
      | None => Some (panic m)
      | Some sleep =>
          let d := int_mul sleep Microsecond in
          Some (m |> set_body (Sleeping (now m + d) :: rest)
                  |> emit (EvSleep d))
      end
  | Sleeping wake :: rest =>
      if wake <=? now m then Some (m |> set_body rest |> emit EvWake)
      else None
  | RecvDone :: rest =>
      match awaiter m with
      | Some (g, h) =>
          if Nat.eqb g (chans m) then
            match handleResponse h InFinished with
            | Some (_, out) =>
                Some (m |> set_awaiter None |> print out |> set_body rest
                        |> emit EvDone)
            | None => None
            end
          else None
      | None => None
      end
  | SendCycle :: rest =>
      match loop m with
      | LoopRecv i =>
          Some (m |> set_loop (LoopGo (int_add i 1))
                  |> print [("Iteration #" ++ Sprintf_d i)%string]
                  |> set_body rest |> emit (EvCycle i))
      | _ => None
      end
  end.

Definition step (m : Machine) (a : Action) : option Machine :=
  if crashed m then None else
  match a with
  | Advance d => if 0 <=? d then Some (set_now (now m + d) m) else None
  | Run inp => run_stmt inp m
  | Spawn =>
      match loop m, body m with
      | LoopGo i, [] =>
          Some (m |> set_body UpdateValuesAndPublish |> set_loop (LoopRecv i))
      | _, _ => None
      end
  | Enter =>
      match awaiter m with
      | Some (g, h) =>
          option_map (emit (EvSelect (now m))) (deliver g h (InEnter (now m)) m)
      | None => None
      end
  | Answer k ok payload =>
      match nth_error (calls m) k, awaiter m with
      | Some (g, _), Some (g', h) =>
          if Nat.eqb g g' && negb (is_closed g ok m) then
            let i := received ok (Value payload) in
            option_map
              (fun m' => m' |> set_calls (remove_nth k (calls m))
                            |> emit (EvResolved (now m) i))
              (deliver g' h i m)
          else None
      | _, _ => None
      end
  | Close g side =>
      if Nat.leb g (chans m) && negb (is_closed g side m)
      then Some (set_closed ((g, side) :: closed m) m)
      else None
  | SeeClosed side =>
      match awaiter m with
      | Some (g, h) =>
          if is_closed g side m then
            let i := received side Closed in
            option_map (emit (EvResolved (now m) i)) (deliver g h i m)
          else None
      | None => None
      end
  | Fire =>
      match awaiter m with
      | Some (g, h) =>
          let i := InTimer (now m) in
          option_map (emit (EvResolved (now m) i)) (deliver g h i m)
      | None => None
      end
  end.

Fixpoint exec (m : Machine) (acts : list Action) : option Machine :=
  match acts with
  | [] => Some m
  | a :: acts' =>
      match step m a with
      | Some m' => exec m' acts'
      | None => None
      end
  end.

(** The events of an execution, oldest first. *)
Definition history (m : Machine) : list Event := rev (trace m).

(** ** The initial states *)

Definition boot (t0 : Z) (st : Stock) (l : Loop) (prog : list Stmt) : Machine :=
  {| now := t0; stock := st;
     streamMessage := mkStreamMessage "" "" "" "" 0;
     loop := l; body := prog; chans := 0; closed := []; calls := [];
     awaiter := None; stdout := []; trace := []; crashed := false |}.

(** [main] at [SetUpChannelGroup(); GrantPermissions()]; no stock is
    touched before [RunStocks]. *)
Definition bootstrap (t0 : Z) : Machine :=
  boot t0 (mkStock "" 0 0 0 0 0 0) LoopOff
       (SetUpChannelGroup ++ GrantPermissions).

(** The goroutine [RunStocks] starts for one stock: [st.RunCycle()] on its
    own copy [st]. *)
Definition RunCycle (t0 : Z) (st : Stock) : Machine :=
  boot t0 st (LoopGo 0) [].

Definition reachable (init m : Machine) : Prop :=
  exists acts, exec init acts = Some m.

End Program.


(* ================================================================= *)
(** * Part 5: the properties, named *)

(** ** [handleResponse] *)

(** A goroutine started by [go handleResponse(.., timeout, ..)]. *)
Definition started (timeout : Z) : Awaiter := mkAwaiter timeout HStart.

(** What a completed run writes for the input that ended its wait. *)
Definition reported (i : HInput) : list string :=
  match outcome_of i with
  | Some o => [report o]
  | None => []
  end.

(** "Exactly one of the three terminal events resolves the call, exactly one
    Outcome is produced and reported": a run to completion consumes one
    terminal input, which carries an Outcome, and writes its report. *)
Definition resolves_with_one_outcome (timeout : Z) (ins : list HInput) : Prop :=
  forall h out,
    handleResponse_run (started timeout) ins = Some (h, out) ->
    h_control h = HExit ->
    exists t0 i o,
      ins = [InEnter t0; i; InFinished] /\
      outcome_of i = Some o /\
      out = [report o].

(** [l] is an initial segment of [l']. *)
Definition prefix {A} (l l' : list A) : Prop := exists rest, l' = l ++ rest.

(** ** Histories *)

Fixpoint count (p : Event -> bool) (l : list Event) : nat :=
  match l with
  | [] => 0
  | e :: l' => if p e then S (count p l') else count p l'
  end.

Definition is_update (e : Event) : bool :=
  match e with EvUpdate _ => true | _ => false end.
Definition is_call (e : Event) : bool :=
  match e with EvCall _ => true | _ => false end.
Definition is_await (e : Event) : bool :=
  match e with EvAwait _ => true | _ => false end.
Definition is_select (e : Event) : bool :=
  match e with EvSelect _ => true | _ => false end.
Definition is_resolved (e : Event) : bool :=
  match e with EvResolved _ _ => true | _ => false end.
Definition is_sleep (e : Event) : bool :=
  match e with EvSleep _ => true | _ => false end.
Definition is_wake (e : Event) : bool :=
  match e with EvWake => true | _ => false end.
Definition is_done (e : Event) : bool :=
  match e with EvDone => true | _ => false end.
Definition is_cycle (e : Event) : bool :=
  match e with EvCycle _ => true | _ => false end.

(** The requests handed to the client, oldest first. *)
Fixpoint calls_of (h : list Event) : list Request :=
  match h with
  | [] => []
  | EvCall r :: h' => r :: calls_of h'
  | _ :: h' => calls_of h'
  end.

(** The requests a sequence of statements still hands to the client. *)
Fixpoint requests_of (b : list Stmt) : list Request :=
  match b with
  | [] => []
  | GoRequest r :: b' => r :: requests_of b'
  | _ :: b' => requests_of b'
  end.

(** A sequence of statements made of request rounds: hand a request to the
    client, start [handleResponse], wait for its signal. *)
Fixpoint rounds_only (b : list Stmt) : Prop :=
  match b with
  | [] => True
  | MakeChans :: b' => rounds_only b'
  | GoRequest _ :: GoHandleResponse _ :: RecvDone :: b' => rounds_only b'
  | _ => False
  end.

(** How far [handleResponse] has come, against the number [d] of rounds that
    are done: [s] selects entered and [r] waits resolved so far. *)
Definition awaiter_progress (h : Awaiter) (d s r : nat) : Prop :=
  match h_control h with
  | HStart => s = d /\ r = d
  | HSelect _ => s = S d /\ r = d
  | HFinish => s = S d /\ r = S d
  | HExit => False
  end.

(** The states of a machine that runs rounds, with the events it has left
    behind: [c] calls, [a] awaiters started, [d] rounds done. *)
Definition rounds_inv (m : Machine) : Prop :=
  let tr := trace m in
  let c := count is_call tr in
  let a := count is_await tr in
  let s := count is_select tr in
  let r := count is_resolved tr in
  let d := count is_done tr in
  crashed m = false /\ loop m = LoopOff /\
  match body m, awaiter m with
  | GoHandleResponse _ :: RecvDone :: b', None =>
      rounds_only b' /\ c = S d /\ a = d /\ s = d /\ r = d
  | RecvDone :: b', Some (g, h) =>
      rounds_only b' /\ g = chans m /\ c = S d /\ a = S d /\
      awaiter_progress h d s r
  | b, None => rounds_only b /\ c = d /\ a = d /\ s = d /\ r = d
  | _, _ => False
  end.

(** The timer of a waiting [handleResponse] fires within three seconds of
    the present. *)
Definition timer_inv (m : Machine) : Prop :=
  match awaiter m with
  | Some (_, h) =>
      match h_control h with
      | HSelect deadline => deadline <= now m + Second * 3
      | _ => True
      end
  | None => True
  end.

(** The Outcomes observed, oldest first. *)
Fixpoint outcomes_of (h : list Event) : list Outcome :=
  match h with
  | [] => []
  | EvResolved _ i :: h' =>
      match outcome_of i with
      | Some o => o :: outcomes_of h'
      | None => outcomes_of h'
      end
  | _ :: h' => outcomes_of h'
  end.

(** ** The bootstrap *)

(** The seven operations of [SetUpChannelGroup] and [GrantPermissions]. *)
Definition bootstrap_plan (auths : Auths) (stocks : list Stock) : list Request :=
  [ ChannelGroupRemoveGroup CHANNEL_GROUP;
    ChannelGroupAddChannel CHANNEL_GROUP (stockNames stocks);
    GrantChannelGroup CHANNEL_GROUP false true GRANT_TTL (bootstrapAuth auths);
    GrantChannelGroup CHANNEL_GROUP true false GRANT_TTL "";
    GrantSubscribe CHAT_CHANNEL true true GRANT_TTL "";
    GrantSubscribe HISTORY_CHANNEL true false GRANT_TTL "";
    GrantSubscribe (stockNames stocks) false true GRANT_TTL (Auth auths) ].

(** A schedule that lets a round end in a given Outcome: the request and
    the awaiter are started, the awaiter reaches its select, the call answers
    (or three seconds pass and the timer fires), and the signal on [done] is
    received. *)
Definition no_inputs : Inputs := mkInputs "" 0 0.

Definition resolve (o : Outcome) : list Action :=
  match o with
  | Success p => [Answer 0 true p]
  | Failure p => [Answer 0 false p]
  | Timeout => [Advance (Second * 3); Fire]
  end.

Definition round_schedule (o : Outcome) : list Action :=
  [Run no_inputs; Run no_inputs; Enter] ++ resolve o ++ [Run no_inputs].

Definition bootstrap_schedule (o1 o2 o3 o4 o5 o6 o7 : Outcome) : list Action :=
  (Run no_inputs :: round_schedule o1 ++ round_schedule o2) ++
  (Run no_inputs :: round_schedule o3 ++ round_schedule o4 ++
     round_schedule o5 ++ round_schedule o6 ++ round_schedule o7).

(** ** The loop of a stock *)

(** How far the events of the current tick are ahead of the completed
    ticks: updates, calls, awaiters started, sleeps entered, sleeps left. *)
Definition ahead (tr : list Event) (u c a sl w : nat) : Prop :=
  let y := count is_cycle tr in
  count is_update tr = (u + y)%nat /\
  count is_call tr = (c + y)%nat /\
  count is_await tr = (a + y)%nat /\
  count is_sleep tr = (sl + y)%nat /\
  count is_wake tr = (w + y)%nat.

(** [handleResponse] against the rounds done, whether it runs or not. *)
Definition awaiter_inv (m : Machine) : Prop :=
  let tr := trace m in
  let d := count is_done tr in
  match awaiter m with
  | None => count is_select tr = d /\ count is_resolved tr = d
  | Some (g, h) =>
      g = chans m /\
      awaiter_progress h d (count is_select tr) (count is_resolved tr)
  end.

(** The order of the events of every tick, as inequalities between the
    numbers of events so far. *)
Definition tick_order (h : list Event) : Prop :=
  let y := count is_cycle h in
  let d := count is_done h in
  (y <= d)%nat /\
  (d <= count is_wake h)%nat /\
  (count is_wake h <= count is_sleep h)%nat /\
  (count is_sleep h <= count is_await h)%nat /\
  (count is_await h <= count is_call h)%nat /\
  (count is_call h <= count is_update h)%nat /\
  (count is_update h <= S y)%nat /\
  (d <= count is_resolved h)%nat /\
  (count is_resolved h <= count is_select h)%nat /\
  (count is_select h <= count is_await h)%nat.

(** The states of [RunCycle] and of the goroutine of its current tick. *)
Definition cycle_inv (T : Z) (m : Machine) : Prop :=
  let tr := trace m in
  let y := count is_cycle tr in
  let d := count is_done tr in
  if crashed m then tick_order tr
  else
    awaiter_inv m /\
    match body m with
    | [] =>
        (exists i, loop m = LoopGo i) /\ awaiter m = None /\
        ahead tr 0 0 0 0 0 /\ d = y
    | s :: rest =>
        (exists i, loop m = LoopRecv i) /\
        match s with
        | UpdateValuesStmt =>
            rest = [MakeChans; GoPublish; GoHandleResponse T; SleepRandn;
                    RecvDone; SendCycle] /\
            awaiter m = None /\ ahead tr 0 0 0 0 0 /\ d = y
        | MakeChans =>
            rest = [GoPublish; GoHandleResponse T; SleepRandn; RecvDone;
                    SendCycle] /\
            awaiter m = None /\ ahead tr 1 0 0 0 0 /\ d = y
        | GoPublish =>
            rest = [GoHandleResponse T; SleepRandn; RecvDone; SendCycle] /\
            awaiter m = None /\ ahead tr 1 0 0 0 0 /\ d = y
        | GoHandleResponse _ =>
            rest = [SleepRandn; RecvDone; SendCycle] /\
            awaiter m = None /\ ahead tr 1 1 0 0 0 /\ d = y
        | SleepRandn =>
            rest = [RecvDone; SendCycle] /\
            awaiter m <> None /\ ahead tr 1 1 1 0 0 /\ d = y
        | Sleeping _ =>
            rest = [RecvDone; SendCycle] /\
            awaiter m <> None /\ ahead tr 1 1 1 1 0 /\ d = y
        | RecvDone =>
            rest = [SendCycle] /\
            awaiter m <> None /\ ahead tr 1 1 1 1 1 /\ d = y
        | SendCycle =>
            rest = [] /\
            awaiter m = None /\ ahead tr 1 1 1 1 1 /\ d = S y
        | GoRequest _ => False
        end
    end.




(** The message of the latest price update in a history, [cur] being the
    one before the history starts. *)
Fixpoint latest (cur : option StreamMessage) (h : list Event)
  : option StreamMessage :=
  match h with
  | [] => cur
  | EvUpdate msg :: h' => latest (Some msg) h'
  | _ :: h' => latest cur h'
  end.

(** Every request in the history publishes, on the channel [name], the
    message of the latest price update before it. *)
Fixpoint published (name : string) (cur : option StreamMessage)
                   (h : list Event) : Prop :=
  match h with
  | [] => True
  | EvUpdate msg :: h' => published name (Some msg) h'
  | EvCall r :: h' =>
      (exists msg, cur = Some msg /\ r = Publish name msg) /\
      published name cur h'
  | _ :: h' => published name cur h'
  end.

Definition message_inv (st : Stock) (m : Machine) : Prop :=
  Name (stock m) = Name st /\
  published (Name st) None (history m) /\
  match latest None (history m) with
  | Some msg => streamMessage m = msg
  | None =>
      match body m with
      | MakeChans :: _ | GoPublish :: _ => False
      | _ => True
      end
  end.

(** A stock and the inputs of its first tick, for the examples. *)
Definition MSFT : Stock := mkStock "MSFT" 100 0 10 20 10 500.
Definition first_inputs : Inputs := mkInputs "11:59:59am" 7 123.
Definition first_message : StreamMessage :=
  mkStreamMessage "11:59:59am" "100.02" "0.02" "0.02" 1330.

(** ** The timeout argument *)

(** A machine with every trace of the timeout argument erased: in the
    statements left, in the running [handleResponse], in the history. *)
Definition forget_stmt (s : Stmt) : Stmt :=
  match s with
  | GoHandleResponse _ => GoHandleResponse 0
  | _ => s
  end.

Definition forget_event (e : Event) : Event :=
  match e with
  | EvAwait _ => EvAwait 0
  | _ => e
  end.

Definition forget_awaiter (a : option (nat * Awaiter))
  : option (nat * Awaiter) :=
  match a with
  | Some (g, h) => Some (g, mkAwaiter 0 (h_control h))
  | None => None
  end.

Definition forget (m : Machine) : Machine :=
  mkMachine (now m) (stock m) (streamMessage m) (loop m)
            (map forget_stmt (body m)) (chans m) (closed m) (calls m)
            (forget_awaiter (awaiter m)) (stdout m)
            (map forget_event (trace m)) (crashed m).

(** What is observed of a run of [handleResponse]: its control and its
    output. *)
Definition observed (r : option (Awaiter * list string))
  : option (HControl * list string) :=
  option_map (fun r => (h_control (fst r), snd r)) r.

(** The clock reading at which the latest select of a history was entered,
    [sel] being the one before the history starts. *)
Fixpoint selected (sel : option Z) (h : list Event) : option Z :=
  match h with
  | [] => sel
  | EvSelect t :: h' => selected (Some t) h'
  | _ :: h' => selected sel h'
  end.

(** Every wait that the timer resolves is resolved three seconds or more
    after its select was entered. *)
Fixpoint timely (sel : option Z) (h : list Event) : Prop :=
  match h with
  | [] => True
  | EvSelect t :: h' => timely (Some t) h'
  | EvResolved now (InTimer _) :: h' =>
      (exists t, sel = Some t /\ t + 3000000000 <= now) /\ timely sel h'
  | _ :: h' => timely sel h'
  end.

Definition timely_inv (m : Machine) : Prop :=
  timely None (history m) /\
  match awaiter m with
  | Some (_, h) =>
      match h_control h with
      | HSelect deadline =>
          exists t, selected None (history m) = Some t /\
                    deadline = t + 3000000000
      | _ => True
      end
  | None => True
  end.

(** ** Executions in which no channel is closed *)

(** Nothing in the program closes a channel; a schedule without [Close] is
    one in which the messaging library does not either. *)
Definition no_close (acts : list Action) : Prop :=
  Forall (fun a => match a with Close _ _ => False | _ => True end) acts.

(** Every wait of the history was resolved by an Outcome: a success, a
    failure or a timeout. *)
Definition outcomes_only (h : list Event) : Prop :=
  Forall (fun e => match e with
                   | EvResolved _ i => exists o, outcome_of i = Some o
                   | _ => True
                   end) h.

(** ** How a wait is resolved *)

(** A wait is resolved by an Outcome (a value on either channel, or the
    timer) or by the closure of one of its channels. *)
Definition outcome_or_closure (i : HInput) : Prop :=
  (exists o, outcome_of i = Some o) \/ i = InSuccess Closed \/
  i = InFailure Closed.

(** A wait resolved by an Outcome. *)
Definition is_outcome (e : Event) : bool :=
  match e with
  | EvResolved _ i =>
      match outcome_of i with Some _ => true | None => false end
  | _ => false
  end.

(** What resolved the waits of a history, oldest first. *)
Fixpoint resolutions_of (h : list Event) : list HInput :=
  match h with
  | [] => []
  | EvResolved _ i :: h' => i :: resolutions_of h'
  | _ :: h' => resolutions_of h'
  end.

(** "Tick N+1's price computation and publish do not begin until tick N's
    publish request has resolved to an Outcome": at every moment, the price
    updates begun are at most one more than the Outcomes observed. *)
Definition ticks_after_outcome (h : list Event) : Prop :=
  forall h', prefix h' h -> (count is_update h' <= S (count is_outcome h'))%nat.



(** ** Rounding *)

(** [f] holds on the [n] integers from [lo] on. *)
Fixpoint all_from (f : Z -> bool) (lo : Z) (n : nat) : bool :=
  match n with
  | O => true
  | S n' => f lo && all_from f (lo + 1) n'
  end.

(** The floats the program would write [c/100], [k/1000] and [m/8]:
    [float64(c) / 100] and so on.  The last is exact. *)
Definition hundredth (c : Z) : float :=
  PrimFloat.div (float64_of_int c) 100.





(* ================================================================= *)
(** * Part 5, continued: further properties *)

(** ** [Roundn] on values with two decimals *)

(** [Roundn] at precision 2 returns [hundredth c] unchanged. *)
Definition Roundn_keeps (c : Z) : bool :=
  PrimFloat.Leibniz.eqb (Roundn (hundredth c) 2) (hundredth c).

(** ** The stock of a loop *)

(** [s'] differs from [s] in its current price at most. *)
Definition same_parameters (s s' : Stock) : Prop :=
  Name s' = Name s /\ InitialPrice s' = InitialPrice s /\
  MinTrade s' = MinTrade s /\ MaxTrade s' = MaxTrade s /\
  Volatility s' = Volatility s /\ MaxDelta s' = MaxDelta s.

(** The current price is the initial price, or its rounded percentage does
    not exceed the threshold. *)
Definition settled (s : Stock) : Prop :=
  CurrentPrice s = InitialPrice s \/
  exceeds (percentage_of (InitialPrice s) (CurrentPrice s)) (MaxDelta s)
  = false.

(** The parameters with which no draw of a tick panics. *)
Definition drawable (s : Stock) : Prop :=
  is_int (Volatility s) /\ 0 < Volatility s < 1000 /\
  0 < int_sub (MaxTrade s) (MinTrade s).

(** ** What the program prints *)

(** The iteration numbers [RunCycle] has printed, oldest first. *)
Fixpoint cycles_of (h : list Event) : list Z :=
  match h with
  | [] => []
  | EvCycle i :: h' => i :: cycles_of h'
  | _ :: h' => cycles_of h'
  end.

(** What an event writes to standard output. *)
Definition printed (e : Event) : list string :=
  match e with
  | EvResolved _ i => reported i
  | EvCycle i => [("Iteration #" ++ Sprintf_d i)%string]
  | _ => []
  end.

(** The moves of the goroutines, as opposed to those of the clock and of
    whoever closes a channel. *)
Definition moves (a : Action) : bool :=
  match a with
  | Advance _ | Close _ _ => false
  | _ => true
  end.

(** The line [RunCycle] prints after its tick [k]. *)
Definition iteration_line (k : nat) : string :=
  ("Iteration #" ++ Sprintf_d (wrap (Z.of_nat k)))%string.

(** The output of a ticker whose publishes ended in [os]: the report of
    each, followed by the line of its tick, from tick [k] on. *)
Fixpoint tick_lines (k : nat) (os : list Outcome) : list string :=
  match os with
  | [] => []
  | o :: os' => report o :: iteration_line k :: tick_lines (S k) os'
  end.

(** The first tick of [MSFT] with its publish acknowledged, and the start
    of the second. *)
Definition first_tick : list Action :=
  [Spawn; Run first_inputs; Run first_inputs; Run first_inputs;
   Run first_inputs; Run first_inputs; Advance 20000;
   Run first_inputs; Enter; Answer 0 true "[1,Sent]";
   Run first_inputs; Run first_inputs; Spawn; Run first_inputs].

(** A wait ended by a reply of the call, not by the timer or a closed
    channel. *)
Definition is_answer (e : Event) : bool :=
  match e with
  | EvResolved _ (InSuccess (Value _)) | EvResolved _ (InFailure (Value _)) =>
      true
  | _ => false
  end.

(** The first tick of [MSFT] with no reply to its publish within three
    seconds, and the second tick up to its new channels. *)
Definition timed_out_tick : list Action :=
  [Spawn; Run first_inputs; Run first_inputs; Run first_inputs;
   Run first_inputs; Run first_inputs; Advance 20000;
   Run first_inputs; Enter; Advance (Second * 3); Fire;
   Run first_inputs; Run first_inputs; Spawn; Run first_inputs;
   Run first_inputs].

(** A schedule of [SetUpChannelGroup] in which the first call replies only
    after its wait has timed out and the second round has begun to wait. *)
Definition late_reply_schedule (ok : bool) (payload : string) : list Action :=
  [Run no_inputs] ++ round_schedule Timeout ++
  [Run no_inputs; Run no_inputs; Enter; Answer 1 ok payload].

(* ================================================================= *)
(** * The whole program: [main] and [RunStocks] *)

(** A goroutine started by [RunStocks]: before its first statement, or in
    [st.RunCycle()]. *)
Inductive Ticker :=
| Starting (st : Stock)
| Running (m : Machine).

(** Where [main] is: in [SetUpChannelGroup(); GrantPermissions()], at
    iteration [k] of the loop of [RunStocks], at [<-done], or back from
    [RunStocks] (where the variant calls [ServeHttp]). *)
Inductive MainAt :=
| AtBootstrap
| AtRunStocks (k : nat)
| AtDone
| Returned.

(** The goroutines of the program.  Standard output is kept by goroutine:
    [startups] has the lines [Starting up ...], newest first. *)
Record World := mkWorld {
  main_at : MainAt;
  setup : Machine;            (* the bootstrap and its goroutines *)
  tickers : list Ticker;      (* the goroutines of [RunStocks], in order *)
  startups : list string
}.

Inductive WAction :=
| Tick (d : Z)                (* time passes, for every goroutine *)
| Main (a : Action)           (* a goroutine of the bootstrap moves *)
| Next                        (* [main] goes on to its next statement *)
| Start (i : nat)             (* goroutine [i] prints and calls [RunCycle] *)
| Go (i : nat) (a : Action).  (* a goroutine of ticker [i] moves *)

Definition ticker_crashed (t : Ticker) : bool :=
  match t with
  | Starting _ => false
  | Running m => crashed m
  end.

(** A panic in any goroutine ends the program. *)
Definition world_crashed (w : World) : bool :=
  crashed (setup w) || existsb ticker_crashed (tickers w).

Fixpoint replace_nth {A} (k : nat) (x : A) (l : list A) : list A :=
  match k, l with
  | _, [] => []
  | O, _ :: l' => x :: l'
  | S k', y :: l' => y :: replace_nth k' x l'
  end.

Definition is_advance (a : Action) : bool :=
  match a with Advance _ => true | _ => false end.

Definition pass (d : Z) (t : Ticker) : Ticker :=
  match t with
  | Starting st => Starting st
  | Running m => Running (set_now (now m + d) m)
  end.

Section Main.

Variable auths : Auths.
Variable stocks : list Stock.
Variable GetNonSubscribeTimeout : Z.

(** [main] after [LoadConfig()]. *)
Definition main (t0 : Z) : World :=
  {| main_at := AtBootstrap;
     setup := bootstrap auths stocks GetNonSubscribeTimeout t0;
     tickers := [];
     startups := [] |}.

(** [main] goes on: from [GrantPermissions] into [RunStocks], round the
    loop of [RunStocks] with a [go func(st Stock) {...}(stock)] on a copy of
    the next stock, and to [<-done], a channel nobody else has. *)
Definition main_next (w : World) : option World :=
  match main_at w with
  | AtBootstrap =>
      match body (setup w) with
      | [] => Some (mkWorld (AtRunStocks 0) (setup w) (tickers w) (startups w))
      | _ => None
      end
  | AtRunStocks k =>
      match nth_error stocks k with
      | Some st =>
          Some (mkWorld (AtRunStocks (S k)) (setup w)
                        (tickers w ++ [Starting st]) (startups w))
      | None => Some (mkWorld AtDone (setup w) (tickers w) (startups w))
      end
  | AtDone => None
  | Returned => None
  end.

Definition world_step (w : World) (a : WAction) : option World :=
  if world_crashed w then None else
  match a with
  | Tick d =>
      if 0 <=? d then
        Some (mkWorld (main_at w) (set_now (now (setup w) + d) (setup w))
                      (map (pass d) (tickers w)) (startups w))
      else None
  | Main a =>
      if is_advance a then None else
      match step GetNonSubscribeTimeout (setup w) a with
      | Some m' => Some (mkWorld (main_at w) m' (tickers w) (startups w))
      | None => None
      end
  | Next => main_next w
  | Start i =>
      match nth_error (tickers w) i with
      | Some (Starting st) =>
          Some (mkWorld (main_at w) (setup w)
                  (replace_nth i (Running (RunCycle (now (setup w)) st))
                               (tickers w))
                  (("Starting up " ++ Name st ++ newline)%string
                   :: startups w))
      | _ => None
      end
  | Go i a =>
      if is_advance a then None else
      match nth_error (tickers w) i with
      | Some (Running m) =>
          match step GetNonSubscribeTimeout m a with
          | Some m' =>
              Some (mkWorld (main_at w) (setup w)
                            (replace_nth i (Running m') (tickers w))
                            (startups w))
          | None => None
          end
      | _ => None
      end
  end.

Fixpoint world_exec (w : World) (acts : list WAction) : option World :=
  match acts with
  | [] => Some w
  | a :: acts' =>
      match world_step w a with
      | Some w' => world_exec w' acts'
      | None => None
      end
  end.

End Main.

(** What is known of goroutine [i] of [RunStocks] in a world: it belongs to
    stock [i], and is about to start or is somewhere in an execution of
    [RunCycle] on a copy of that stock, with the clock of the program. *)
Definition ticker_ok (stocks : list Stock) (T : Z) (w : World)
  (i : nat) (t : Ticker) : Prop :=
  exists st,
    nth_error stocks i = Some st /\
    match t with
    | Starting st' => st' = st
    | Running m =>
        now m = now (setup w) /\
        exists t1 acts, exec T (RunCycle t1 st) acts = Some m
    end.

(** How far [main] is, against the goroutines it has started. *)
Definition main_ok (stocks : list Stock) (w : World) : Prop :=
  match main_at w with
  | AtBootstrap => tickers w = []
  | AtRunStocks k =>
      List.length (tickers w) = k /\ (k <= List.length stocks)%nat /\
      body (setup w) = []
  | AtDone =>
      List.length (tickers w) = List.length stocks /\ body (setup w) = []
  | Returned => False
  end.

(** The bootstrap with every reply in time, then [RunStocks] up to
    [<-done], for two stocks. *)
Definition two_stocks_schedule : list WAction :=
  map Main (bootstrap_schedule (Success "ok") (Success "ok") (Success "ok")
              (Success "ok") (Success "ok") (Success "ok") (Success "ok"))
  ++ [Next; Next; Start 0; Next; Next].

(** A loop that has not completed a price update: it has built no message,
    handed no call to the client and started no [handleResponse]. *)
Definition before_first_update (T : Z) (st : Stock) (m : Machine) : Prop :=
  stock m = st /\ calls m = [] /\ calls_of (trace m) = [] /\
  (crashed m = false ->
   trace m = [] /\ awaiter m = None /\
   ((body m = [] /\ loop m = LoopGo 0) \/
    (body m = UpdateValuesAndPublish T /\ loop m = LoopRecv 0))).

(** A stock whose volatility admits no draw. *)
Definition BAD : Stock := mkStock "BAD" 50 0 10 20 0 500.
(* ================================================================= *)
(** * Part 6: theorems *)

(** ** Integers and draws *)

Lemma wrap_small (z : Z) : is_int z -> wrap z = z.
Proof.
  unfold is_int, int_min, int_max, wrap. intros H.
  rewrite Z.mod_small; lia.
Qed.

Lemma Intn_Some (n sample k : Z) :
  Intn n sample = Some k -> 0 < n /\ k = sample mod n /\ 0 <= k < n.
Proof.
  unfold Intn. destruct (Z.leb_spec n 0) as [Hn | Hn]; [discriminate |].
  intros [= <-]. pose proof (Z.mod_pos_bound sample n Hn). lia.
Qed.

Lemma Intn_None (n sample : Z) : Intn n sample = None <-> n <= 0.
Proof.
  unfold Intn. destruct (Z.leb_spec n 0); split; intros; (lia || congruence).
Qed.

Lemma Intn_pos (n sample : Z) : 0 < n -> Intn n sample = Some (sample mod n).
Proof.
  unfold Intn. destruct (Z.leb_spec n 0); [lia | reflexivity].
Qed.

(** Where the subtraction and the addition of [Randn] do not overflow, it
    shifts the draw from [[0, max - min)] to [[min, max)]. *)
Lemma Randn_in_range (min max sample : Z) :
  is_int min -> is_int max -> min < max -> max - min <= int_max ->
  Randn min max sample = Some (min + sample mod (max - min)) /\
  min <= min + sample mod (max - min) < max.
Proof.
  intros Hmin Hmax Hlt Hw. unfold Randn, int_sub, int_add.
  assert (Hd : is_int (max - min)) by (unfold is_int, int_min, int_max in *; lia).
  rewrite (wrap_small _ Hd), Intn_pos by lia.
  pose proof (Z.mod_pos_bound sample (max - min) ltac:(lia)) as Hk.
  rewrite wrap_small by (unfold is_int, int_min, int_max in *; lia).
  split; [f_equal; lia | lia].
Qed.

(** An empty or reversed range makes the draw panic. *)
Lemma Randn_empty (min max sample : Z) :
  is_int min -> is_int max -> max <= min -> min - max <= int_max ->
  Randn min max sample = None.
Proof.
  intros Hmin Hmax Hle Hw. unfold Randn, int_sub.
  rewrite wrap_small by (unfold is_int, int_min, int_max in *; lia).
  assert (H : Intn (max - min) sample = None) by (apply Intn_None; lia).
  now rewrite H.
Qed.

(** ** The price update *)

(** Everything [UpdateValues] returns, in terms of its two draws. *)
Lemma UpdateValues_Some stock clock sample1 sample2 msg stock' :
  UpdateValues stock clock sample1 sample2 = Some (msg, stock') ->
  exists k r,
    Intn (Volatility stock) sample1 = Some k /\
    Randn (Volatility stock) 1000 sample2 = Some r /\
    let price := new_price stock k in
    let percentage := percentage_of (InitialPrice stock) price in
    msg = {| Time := clock;
             Price := Sprintf_2f price;
             Delta := Sprintf_2f (PrimFloat.sub price (InitialPrice stock));
             Percentage := Sprintf_2f percentage;
             Vol := int_mul r 10 |} /\
    stock' = set_CurrentPrice
               (if exceeds percentage (MaxDelta stock)
                then InitialPrice stock else price) stock.
Proof.
  unfold UpdateValues, new_price. cbn.
  destruct (Intn (Volatility stock) sample1) as [k |] eqn:Hk; [| discriminate].
  destruct (Randn (Volatility stock) 1000 sample2) as [r |] eqn:Hr;
    [| discriminate].
  intros [= <- <-]. exists k, r. repeat split.
  match goal with |- (if ?b then _ else _) = _ => destruct b end;
    reflexivity.
Qed.

(** The update writes the current price and nothing else. *)
Lemma UpdateValues_Name stock clock sample1 sample2 msg stock' :
  UpdateValues stock clock sample1 sample2 = Some (msg, stock') ->
  Name stock' = Name stock.
Proof.
  intros Hu.
  destruct (UpdateValues_Some _ _ _ _ _ _ Hu) as (k & r & _ & _ & _ & ->).
  reflexivity.
Qed.

Lemma UpdateValues_runs stock clock sample1 sample2 :
  is_int (Volatility stock) -> 0 < Volatility stock < 1000 ->
  exists msg stock', UpdateValues stock clock sample1 sample2 = Some (msg, stock').
Proof.
  intros Hi Hv. unfold UpdateValues. cbn.
  rewrite Intn_pos by lia.
  destruct (Randn_in_range (Volatility stock) 1000 sample2) as [-> _];
    try (unfold is_int, int_min, int_max in *; lia).
  eauto.
Qed.

(** A price that was just reset is the price the next tick starts from: the
    test against zero of line 204 keeps it. *)
Lemma current_price_reset stock p :
  InitialPrice stock = p ->
  current_price (set_CurrentPrice p stock) = p.
Proof.
  intros <-. unfold current_price. cbn.
  destruct (PrimFloat.eqb (InitialPrice stock) 0); reflexivity.
Qed.

Set Warnings "-inexact-float".

(** The first three statements of a tick, run without interruption: the
    request handed to the client carries the message of the update, and the
    stock is already in its state after the update. *)
Lemma tick_publishes (T : Z) m inp inp1 inp2 rest msg stock' :
  crashed m = false ->
  body m = UpdateValuesStmt :: MakeChans :: GoPublish :: rest ->
  UpdateValues (stock m) (clock inp) (sample1 inp) (sample2 inp)
    = Some (msg, stock') ->
  exists m',
    exec T m [Run inp; Run inp1; Run inp2] = Some m' /\
    trace m' = EvCall (Publish (Name (stock m)) msg) :: EvUpdate msg :: trace m /\
    stock m' = stock' /\ body m' = rest.
Proof.
  destruct m as [t st sm l b ch cl ca aw out tr cr]. cbn.
  intros -> -> Hu. cbn. rewrite Hu. cbn. eexists. repeat split.
  cbn. now rewrite (UpdateValues_Name _ _ _ _ _ _ Hu).
Qed.

(** C1. Mean reversion is applied after the message is built.  When the
    absolute value of the rounded percentage of the new price exceeds
    [MaxDelta/100], the message of this tick carries the new price, its delta
    and its percentage as they were before the reset, the stock is left with
    its initial price as current price, the request published for the tick
    carries that message, and the next tick computes its price from the
    initial price. *)
Theorem mean_reversion_after_message
  (s : Stock) clock sample1 sample2 msg s' :
  UpdateValues s clock sample1 sample2 = Some (msg, s') ->
  let price := new_price s (sample1 mod Volatility s) in
  let percentage := percentage_of (InitialPrice s) price in
  PrimFloat.ltb (PrimFloat.div (float64_of_int (MaxDelta s)) 100)
                (PrimFloat.abs percentage) = true ->
  (Price msg = Sprintf_2f price /\
   Delta msg = Sprintf_2f (PrimFloat.sub price (InitialPrice s)) /\
   Percentage msg = Sprintf_2f percentage) /\
  CurrentPrice s' = InitialPrice s /\
  (forall T m inp1 inp2 rest,
     crashed m = false -> stock m = s ->
     body m = UpdateValuesStmt :: MakeChans :: GoPublish :: rest ->
     exists m',
       exec T m [Run (mkInputs clock sample1 sample2); Run inp1; Run inp2]
         = Some m' /\
       trace m' = EvCall (Publish (Name s) msg) :: EvUpdate msg :: trace m /\
       CurrentPrice (stock m') = InitialPrice s) /\
  (forall clock2 s1 s2 msg2 s2',
     UpdateValues s' clock2 s1 s2 = Some (msg2, s2') ->
     Price msg2 =
       Sprintf_2f (PrimFloat.add (InitialPrice s)
                     (change_of (Volatility s) (s1 mod Volatility s)))).
Proof.
  intros Hu price percentage Hex.
  destruct (UpdateValues_Some _ _ _ _ _ _ Hu) as (k & r & Hk & _ & Hmsg & Hst).
  destruct (Intn_Some _ _ _ Hk) as (_ & -> & _).
  fold price percentage in Hmsg, Hst. cbv zeta in Hmsg, Hst.
  change (exceeds percentage (MaxDelta s) = true) in Hex.
  rewrite Hex in Hst.
  assert (Hcur : CurrentPrice s' = InitialPrice s) by (subst; reflexivity).
  split; [subst msg; cbn; auto |]. split; [exact Hcur |]. split.
  - intros T m inp1 inp2 rest Hc Hs Hb.
    destruct (tick_publishes T m (mkInputs clock sample1 sample2) inp1 inp2
                rest msg s' Hc Hb) as (m' & He & Ht & Hs' & _).
    { cbn. now rewrite Hs. }
    exists m'. rewrite Hs in Ht. rewrite Hs'. auto.
  - intros clock2 s1 s2 msg2 s2' Hu2.
    destruct (UpdateValues_Some _ _ _ _ _ _ Hu2) as (k2 & r2 & Hk2 & _ & Hmsg2 & _).
    assert (Hv : Volatility s' = Volatility s) by (subst; reflexivity).
    rewrite Hv in Hk2. destruct (Intn_Some _ _ _ Hk2) as (_ & -> & _).
    subst msg2. cbn. unfold new_price. rewrite Hv. do 2 f_equal.
    rewrite Hst. now apply current_price_reset.
Qed.

Lemma mean_reversion_after_message_witness :
  let s := mkStock "MSFT" 100 0 10 20 10 1 in
  let msg := mkStreamMessage "11:59:59am" "100.04" "0.04" "0.04" 150 in
  let s' := mkStock "MSFT" 100 100 10 20 10 1 in
  UpdateValues s "11:59:59am" 9 5 = Some (msg, s') /\
  CurrentPrice s' = InitialPrice s.
Proof.
  intros s msg s'.
  assert (Hu : UpdateValues s "11:59:59am" 9 5 = Some (msg, s'))
    by (vm_compute; reflexivity).
  split; [exact Hu |].
  apply (mean_reversion_after_message s "11:59:59am" 9 5 msg s' Hu).
  vm_compute; reflexivity.
Defined.

(** [k - volatility/2] does not leave the range of [int]. *)
Lemma change_of_exact (volatility k : Z) :
  is_int volatility -> 0 <= k < volatility ->
  change_of volatility k =
  PrimFloat.div (float64_of_int (k - Z.quot volatility 2)) 100.
Proof.
  intros Hi Hk. unfold change_of, int_sub, int_div.
  assert (Hq : 0 <= Z.quot volatility 2 <= volatility).
  { rewrite Z.quot_div_nonneg by lia.
    pose proof (Z.div_pos volatility 2 ltac:(lia) ltac:(lia)).
    pose proof (Z.div_le_upper_bound volatility 2 volatility ltac:(lia) ltac:(lia)).
    lia. }
  rewrite (wrap_small (Z.quot volatility 2))
    by (unfold is_int, int_min, int_max in *; lia).
  rewrite wrap_small by (unfold is_int, int_min, int_max in *; lia).
  reflexivity.
Qed.

(** C6. A tick adds [(k - volatility/2)/100] to the current price of the
    stock, [stock.CurrentPrice] as the previous tick left it (the initial
    price for a stock whose current price is still unset, that is zero),
    where [k] is the draw from [[0, volatility)]: every value of the range is
    the image of one residue class of samples, and [volatility/2] truncates.
    The message carries this price, and as delta this price minus the initial
    price. *)
Theorem price_jitter (s : Stock) clock sample1 sample2 msg s' :
  is_int (Volatility s) ->
  UpdateValues s clock sample1 sample2 = Some (msg, s') ->
  let k := sample1 mod Volatility s in
  let change :=
    PrimFloat.div (float64_of_int (k - Z.quot (Volatility s) 2)) 100 in
  let price :=
    if PrimFloat.eqb (CurrentPrice s) 0
    then PrimFloat.add (InitialPrice s) change
    else PrimFloat.add (CurrentPrice s) change in
  (Intn (Volatility s) sample1 = Some k /\ 0 <= k < Volatility s /\
   forall j sample, 0 <= j < Volatility s ->
     (Intn (Volatility s) sample = Some j <-> sample mod Volatility s = j)) /\
  Price msg = Sprintf_2f price /\
  Delta msg = Sprintf_2f (PrimFloat.sub price (InitialPrice s)) /\
  CurrentPrice s' =
    (if exceeds (percentage_of (InitialPrice s) price) (MaxDelta s)
     then InitialPrice s else price).
Proof.
  intros Hi Hu k change price.
  destruct (UpdateValues_Some _ _ _ _ _ _ Hu) as (k0 & r & Hk & _ & Hmsg & Hst).
  destruct (Intn_Some _ _ _ Hk) as (Hpos & -> & Hr). fold k in Hk, Hr, Hmsg, Hst.
  assert (Hp : new_price s k = price).
  { unfold new_price, price, change, current_price.
    rewrite change_of_exact by assumption.
    now destruct (PrimFloat.eqb (CurrentPrice s) 0). }
  rewrite Hp in Hmsg, Hst. cbv zeta in Hmsg, Hst.
  split; [repeat split; try lia; auto |].
  - intros Hj. destruct (Intn_Some _ _ _ Hj) as (_ & -> & _). reflexivity.
  - intros <-. now apply Intn_pos.
  - subst msg s'. cbn. auto.
Qed.

Lemma price_jitter_witness :
  let s := mkStock "MSFT" 100 100.02 10 20 10 500 in
  exists msg s',
    UpdateValues s "11:59:59am" 7 5 = Some (msg, s') /\
    Price msg = "100.04"%string /\ Delta msg = "0.04"%string.
Proof.
  intros s.
  assert (Hu : exists msg s',
    UpdateValues s "11:59:59am" 7 5 = Some (msg, s') /\
    Price msg = "100.04"%string /\ Delta msg = "0.04"%string).
  { eexists. eexists. split; [vm_compute; reflexivity |].
    split; reflexivity. }
  destruct Hu as (msg & s' & Hu & HP & HD). exists msg, s'.
  assert (Hi : is_int (Volatility s)) by (vm_compute; intuition discriminate).
  pose proof (price_jitter s "11:59:59am" 7 5 msg s' Hi Hu) as (_ & HP' & _).
  split; [exact Hu |]. split; [| exact HD].
  rewrite HP'. vm_compute. reflexivity.
Defined.

Lemma all_from_spec (f : Z -> bool) (n : nat) : forall lo,
  all_from f lo n = true ->
  forall c, lo <= c < lo + Z.of_nat n -> f c = true.
Proof.
  induction n as [| n IH]; intros lo H c Hc; [lia |].
  cbn [all_from] in H. apply andb_prop in H as [H0 H1].
  destruct (Z.eq_dec c lo) as [-> | Hne]; [assumption |].
  apply (IH (lo + 1) H1). lia.
Qed.

(** Each value of [[min, max)] is what [Randn] returns on one residue class
    of samples modulo the width of the range, and nothing else is returned:
    a source that is uniform over whole periods yields a uniform draw. *)
Lemma Randn_uniform (min max : Z) :
  is_int min -> is_int max -> min < max -> max - min <= int_max ->
  forall v sample,
    Randn min max sample = Some v <->
    (min <= v < max /\ sample mod (max - min) = v - min).
Proof.
  intros Hmin Hmax Hlt Hw v sample.
  destruct (Randn_in_range min max sample Hmin Hmax Hlt Hw) as [-> Hr].
  split.
  - intros [= <-]. lia.
  - intros [_ He]. f_equal. lia.
Qed.

(** C8. The volume of a tick is ten times the draw of [Randn(volatility,
    1000)], a draw from [[volatility, 1000)] in which every value is the image
    of one residue class of samples.  For a volatility strictly between 0 and
    1000 the update completes with a volume that is a multiple of 10 in
    [[volatility * 10, 10000)]; for a volatility of 1000 or more the draw is
    over an empty range and has no result: it panics, and so does the
    update. *)
Theorem volume_draw (s : Stock) clock sample1 sample2 :
  is_int (Volatility s) ->
  (forall msg s',
     UpdateValues s clock sample1 sample2 = Some (msg, s') ->
     0 < Volatility s < 1000 /\
     exists r,
       Randn (Volatility s) 1000 sample2 = Some r /\
       Volatility s <= r < 1000 /\
       sample2 mod (1000 - Volatility s) = r - Volatility s /\
       Vol msg = r * 10) /\
  (0 < Volatility s < 1000 ->
   (forall v sample,
      Randn (Volatility s) 1000 sample = Some v <->
      (Volatility s <= v < 1000 /\
       sample mod (1000 - Volatility s) = v - Volatility s)) /\
   exists msg s',
     UpdateValues s clock sample1 sample2 = Some (msg, s') /\
     Vol msg mod 10 = 0 /\
     Volatility s * 10 <= Vol msg < 10000) /\
  (1000 <= Volatility s ->
   Randn (Volatility s) 1000 sample2 = None /\
   UpdateValues s clock sample1 sample2 = None).
Proof.
  intros Hi.
  assert (Hi1000 : is_int 1000) by (unfold is_int, int_min, int_max; lia).
  assert (Hfacts : forall msg s',
     UpdateValues s clock sample1 sample2 = Some (msg, s') ->
     0 < Volatility s < 1000 /\
     exists r,
       Randn (Volatility s) 1000 sample2 = Some r /\
       Volatility s <= r < 1000 /\
       sample2 mod (1000 - Volatility s) = r - Volatility s /\
       Vol msg = r * 10).
  { intros msg s' Hu.
    destruct (UpdateValues_Some _ _ _ _ _ _ Hu) as (k & r & Hk & Hr & -> & _).
    destruct (Intn_Some _ _ _ Hk) as (Hpos & _).
    assert (Hlt : Volatility s < 1000).
    { destruct (Z.lt_ge_cases (Volatility s) 1000) as [? | Hge]; [assumption |].
      rewrite Randn_empty in Hr; try assumption; try discriminate.
      unfold is_int, int_min, int_max in *; lia. }
    split; [lia |]. exists r.
    assert (Hw : 1000 - Volatility s <= int_max)
      by (unfold is_int, int_min, int_max in *; lia).
    apply (Randn_uniform _ _ Hi Hi1000 Hlt Hw) in Hr as Hr'.
    destruct Hr' as [Hrange Hmod].
    repeat split; try lia; try assumption.
    cbn. unfold int_mul. apply wrap_small.
    unfold is_int, int_min, int_max in *; lia. }
  split; [exact Hfacts |]. split.
  - intros Hv. split.
    + apply Randn_uniform; try assumption; try lia.
      unfold is_int, int_min, int_max in *; lia.
    + destruct (UpdateValues_runs s clock sample1 sample2 Hi Hv) as (msg & s' & Hu).
      exists msg, s'. split; [exact Hu |].
      destruct (Hfacts msg s' Hu) as (_ & r & _ & Hr & _ & ->).
      split; [apply Z.mod_mul; lia | lia].
  - intros Hge.
    assert (Hr : Randn (Volatility s) 1000 sample2 = None).
    { apply Randn_empty; try assumption.
      unfold is_int, int_min, int_max in *; lia. }
    split; [exact Hr |].
    destruct (UpdateValues s clock sample1 sample2) as [[msg s'] |] eqn:Hu;
      [| reflexivity].
    destruct (Hfacts msg s' eq_refl) as (Hlt & _). lia.
Qed.

Lemma volume_draw_witness :
  Randn 1200 1000 5 = None /\
  UpdateValues (mkStock "MSFT" 100 100 10 20 1200 500) "11:59:59am" 1199 5
  = None.
Proof.
  assert (Hi : is_int (Volatility (mkStock "MSFT" 100 100 10 20 1200 500)))
    by (vm_compute; intuition discriminate).
  pose proof (volume_draw (mkStock "MSFT" 100 100 10 20 1200 500)
                "11:59:59am" 1199 5 Hi) as (_ & _ & H).
  apply H. cbn. lia.
Defined.

(** ** [handleResponse] *)

Lemma handleResponse_timeout_kept h i h' out :
  handleResponse h i = Some (h', out) -> h_timeout h' = h_timeout h.
Proof.
  unfold handleResponse.
  destruct (h_control h), i as [? | [] | [] | ? |];
    try discriminate; try (intros [= <- _]; reflexivity).
  destruct (_ <=? _); [intros [= <- _]; reflexivity | discriminate].
Qed.

(** The transitions out of each control state. *)
Lemma handleResponse_start timeout i h out :
  handleResponse (mkAwaiter timeout HStart) i = Some (h, out) ->
  exists t0, i = InEnter t0 /\
             h = mkAwaiter timeout (HSelect (t0 + Second * 3)) /\ out = [].
Proof.
  unfold handleResponse.
  destruct i as [t0 | [] | [] | ? |]; cbn; try discriminate.
  intros [= <- <-]. eauto.
Qed.

Lemma handleResponse_select timeout deadline i h out :
  handleResponse (mkAwaiter timeout (HSelect deadline)) i = Some (h, out) ->
  terminal i = true /\
  (forall now, i = InTimer now -> deadline <= now) /\
  h = mkAwaiter timeout HFinish /\ out = reported i.
Proof.
  unfold handleResponse.
  destruct i as [t0 | [p |] | [p |] | now |]; cbn; try discriminate;
    try (intros [= <- <-]; repeat split; intros; discriminate).
  destruct (Z.leb_spec deadline now); [| discriminate].
  intros [= <- <-]. repeat split. intros ? [= <-]. assumption.
Qed.

Lemma handleResponse_finish timeout i h out :
  handleResponse (mkAwaiter timeout HFinish) i = Some (h, out) ->
  i = InFinished /\ h = mkAwaiter timeout HExit /\ out = [].
Proof.
  unfold handleResponse.
  destruct i as [t0 | [] | [] | ? |]; cbn; try discriminate.
  intros [= <- <-]. auto.
Qed.

Lemma handleResponse_exit timeout i : handleResponse (mkAwaiter timeout HExit) i = None.
Proof. destruct i as [t0 | [] | [] | ? |]; reflexivity. Qed.

(** While it waits, the goroutine takes whichever terminal event comes:
    a value or a closure at any time, the timer from its deadline on. *)
Lemma handleResponse_takes timeout deadline i :
  terminal i = true ->
  (forall now, i = InTimer now -> deadline <= now) ->
  handleResponse (mkAwaiter timeout (HSelect deadline)) i
  = Some (mkAwaiter timeout HFinish, reported i).
Proof.
  unfold handleResponse.
  destruct i as [t0 | [p |] | [p |] | now |]; cbn; try discriminate;
    try reflexivity.
  intros _ H. specialize (H now eq_refl).
  destruct (Z.leb_spec deadline now); [reflexivity | lia].
Qed.

(** Every run is an initial segment of: enter the select, take one terminal
    event, signal completion. *)
Lemma handleResponse_run_shape timeout ins h out :
  handleResponse_run (started timeout) ins = Some (h, out) ->
  (ins = [] /\ h = started timeout /\ out = []) \/
  (exists t0,
     ins = [InEnter t0] /\
     h = mkAwaiter timeout (HSelect (t0 + Second * 3)) /\ out = []) \/
  (exists t0 i,
     terminal i = true /\ (forall now, i = InTimer now -> t0 + Second * 3 <= now) /\
     ((ins = [InEnter t0; i] /\
       h = mkAwaiter timeout HFinish /\ out = reported i) \/
      (ins = [InEnter t0; i; InFinished] /\
       h = mkAwaiter timeout HExit /\ out = reported i))).
Proof.
  unfold started.
  destruct ins as [| i1 ins]; cbn [handleResponse_run];
    [intros [= <- <-]; auto |].
  destruct (handleResponse (mkAwaiter timeout HStart) i1)
    as [[h1 o1] |] eqn:H1; [| discriminate].
  apply handleResponse_start in H1 as (t0 & -> & -> & ->).
  destruct ins as [| i2 ins]; cbn [handleResponse_run];
    [intros [= <- <-]; right; left; eauto |].
  destruct (handleResponse (mkAwaiter timeout (HSelect (t0 + Second * 3))) i2)
    as [[h2 o2] |] eqn:H2; [| discriminate].
  apply handleResponse_select in H2 as (Ht & Hd & -> & ->).
  destruct ins as [| i3 ins]; cbn [handleResponse_run].
  { intros [= <- <-]. right; right. exists t0, i2.
    rewrite app_nil_r. auto 6. }
  destruct (handleResponse (mkAwaiter timeout HFinish) i3)
    as [[h3 o3] |] eqn:H3; [| discriminate].
  apply handleResponse_finish in H3 as (-> & -> & ->).
  destruct ins as [| i4 ins]; cbn [handleResponse_run].
  { intros [= <- <-]. right; right. exists t0, i2.
    rewrite !app_nil_r. auto 6. }
  now rewrite handleResponse_exit.
Qed.

(** C5 as the specification states it fails on a closed channel: the run
    completes, no Outcome was produced and nothing was reported. *)
Lemma closed_channel_resolves_without_outcome :
  handleResponse_run (started 20) [InEnter 0; InSuccess Closed; InFinished]
    = Some (mkAwaiter 20 HExit, []) /\
  ~ resolves_with_one_outcome 20 [InEnter 0; InSuccess Closed; InFinished].
Proof.
  split; [reflexivity |].
  intros H. destruct (H (mkAwaiter 20 HExit) [] eq_refl eq_refl)
    as (t0 & i & o & [= _ <-] & Ho & _).
  discriminate.
Qed.

(** C5, amended. One terminal event resolves a call of [handleResponse]: a
    value on the success channel, a value on the error channel, the timer, or
    the closure of either channel.  A run to completion enters the select,
    consumes exactly that one terminal event and then signals completion,
    taking no other input in between; every run is an initial segment of such
    a run.  When the event is a value or the timer, its Outcome is the one
    Outcome of the call and its report is all that is written; on a closure
    nothing is written.  While the goroutine waits it accepts whichever
    terminal event comes. *)
Theorem awaiter_resolves_once (timeout : Z) (ins : list HInput) h out :
  handleResponse_run (started timeout) ins = Some (h, out) ->
  (exists t0 i,
     terminal i = true /\
     prefix ins [InEnter t0; i; InFinished] /\
     (h_control h = HExit ->
      ins = [InEnter t0; i; InFinished] /\
      out = reported i /\
      ((exists o, outcome_of i = Some o /\ out = [report o]) \/
       ((i = InSuccess Closed \/ i = InFailure Closed) /\ out = [])))) /\
  (forall deadline i,
     terminal i = true ->
     (forall now, i = InTimer now -> deadline <= now) ->
     handleResponse (mkAwaiter timeout (HSelect deadline)) i
     = Some (mkAwaiter timeout HFinish, reported i)) /\
  (forall i h' out',
     handleResponse (mkAwaiter timeout HFinish) i = Some (h', out') ->
     i = InFinished).
Proof.
  intros Hrun. split; [| split].
  - destruct (handleResponse_run_shape _ _ _ _ Hrun)
      as [(-> & -> & ->) | [(t0 & -> & -> & ->) | (t0 & i & Ht & Hd & Hcase)]].
    + exists 0, (InTimer 0). split; [reflexivity |].
      split; [eexists; reflexivity | discriminate].
    + exists t0, (InTimer 0). split; [reflexivity |].
      split; [eexists; reflexivity | discriminate].
    + exists t0, i. split; [exact Ht |].
      destruct Hcase as [(-> & -> & ->) | (-> & -> & ->)].
      * split; [exists [InFinished]; reflexivity | discriminate].
      * split; [exists []; reflexivity |]. intros _.
        split; [reflexivity |]. split; [reflexivity |].
        destruct i as [? | [p |] | [p |] | now |]; try discriminate;
          cbn; eauto.
  - intros. now apply handleResponse_takes.
  - intros i h' out' H. now apply handleResponse_finish in H.
Qed.

Lemma awaiter_resolves_once_witness :
  prefix [InEnter 0; InFailure (Value "denied"); InFinished]
         [InEnter 0; InFailure (Value "denied"); InFinished] /\
  handleResponse_run (started 20)
    [InEnter 0; InFailure (Value "denied"); InFinished]
  = Some (mkAwaiter 20 HExit, [report (Failure "denied")]).
Proof.
  assert (Hrun : handleResponse_run (started 20)
                   [InEnter 0; InFailure (Value "denied"); InFinished]
                 = Some (mkAwaiter 20 HExit, [report (Failure "denied")]))
    by reflexivity.
  split; [| exact Hrun].
  destruct (awaiter_resolves_once 20 _ _ _ Hrun)
    as ((t0 & i & _ & _ & Hexit) & _).
  destruct (Hexit eq_refl) as (-> & _). exists []. reflexivity.
Defined.

(** ** Steps of the machine *)

Lemma handleResponse_inv h i h' out :
  handleResponse h i = Some (h', out) ->
  h_timeout h' = h_timeout h /\
  ((h_control h = HStart /\
    exists t0, i = InEnter t0 /\ h_control h' = HSelect (t0 + Second * 3) /\
               out = []) \/
   (exists d, h_control h = HSelect d /\ terminal i = true /\
              (forall now, i = InTimer now -> d <= now) /\
              h_control h' = HFinish /\ out = reported i) \/
   (h_control h = HFinish /\ i = InFinished /\ h_control h' = HExit /\
    out = [])).
Proof.
  intros H. split; [eapply handleResponse_timeout_kept; eassumption |].
  destruct h as [t c]. destruct c as [| d | |].
  - apply handleResponse_start in H as (t0 & -> & -> & ->). left.
    split; [reflexivity |]. exists t0. auto.
  - apply handleResponse_select in H as (? & ? & -> & ->). right; left.
    exists d. auto.
  - apply handleResponse_finish in H as (-> & -> & ->). right; right. auto.
  - now rewrite handleResponse_exit in H.
Qed.

(** Case analysis on a step: every test and pattern matching of [step] is
    split, and the hypothesis is turned into the equation of the new state. *)
Ltac break_step H :=
  unfold step, run_stmt, deliver, option_map in H;
  repeat
    (match type of H with
     | context [match ?x with _ => _ end] =>
         lazymatch x with
         | context [match _ with _ => _ end] => fail
         | _ => destruct x eqn:?
         end
     end;
     try discriminate H);
  injection H as H; subst.

Lemma step_trace T m a m' :
  step T m a = Some m' ->
  trace m' = trace m \/ exists e, trace m' = e :: trace m.
Proof.
  intros H. break_step H; cbn; eauto.
Qed.

(** ** Executions *)

Lemma exec_app T m acts1 acts2 :
  exec T m (acts1 ++ acts2) =
  match exec T m acts1 with
  | Some m' => exec T m' acts2
  | None => None
  end.
Proof.
  revert m. induction acts1 as [| a acts1 IH]; intros m; cbn; [reflexivity |].
  destruct (step T m a); [apply IH | reflexivity].
Qed.

Lemma exec_snoc T m acts a m' :
  exec T m (acts ++ [a]) = Some m' ->
  exists m0, exec T m acts = Some m0 /\ step T m0 a = Some m'.
Proof.
  rewrite exec_app. destruct (exec T m acts) as [m0 |]; [| discriminate].
  cbn. destruct (step T m0 a) as [m1 |] eqn:Hs; [| discriminate].
  intros [= <-]. eauto.
Qed.

(** An invariant of the steps holds along every execution. *)
Lemma exec_invariant T (I : Machine -> Prop) :
  (forall m a m', I m -> step T m a = Some m' -> I m') ->
  forall acts m m', I m -> exec T m acts = Some m' -> I m'.
Proof.
  intros Hstep. induction acts as [| a acts IH]; intros m m' Hm; cbn.
  - now intros [= <-].
  - destruct (step T m a) as [m1 |] eqn:Hs; [| discriminate].
    apply IH. eapply Hstep; eassumption.
Qed.

Lemma prefix_snoc {A} (l' l : list A) (x : A) :
  prefix l' (l ++ [x]) -> l' = l ++ [x] \/ prefix l' l.
Proof.
  intros [rest H]. destruct (rev rest) as [| y rrest] eqn:Hr.
  - apply (f_equal (@rev A)) in Hr. rewrite rev_involutive in Hr. cbn in Hr.
    subst rest. rewrite app_nil_r in H. auto.
  - apply (f_equal (@rev A)) in Hr. rewrite rev_involutive in Hr. cbn in Hr.
    subst rest. right. exists (rev rrest).
    rewrite app_assoc in H. apply app_inj_tail in H. tauto.
Qed.

(** Every initial segment of a history is the history of an earlier state of
    the same execution: a property of all reachable histories holds at every
    moment of every execution. *)
Lemma history_prefixes T init (Q : list Event -> Prop) :
  trace init = [] ->
  (forall acts m, exec T init acts = Some m -> Q (history m)) ->
  forall acts m h',
    exec T init acts = Some m -> prefix h' (history m) -> Q h'.
Proof.
  intros Hinit HQ acts. induction acts as [| a acts IH] using rev_ind;
    intros m h' He Hp.
  - cbn in He. injection He as <-. unfold history in Hp. rewrite Hinit in Hp.
    destruct Hp as [rest Hp]. cbn in Hp. symmetry in Hp.
    apply app_eq_nil in Hp as [-> _].
    specialize (HQ [] init eq_refl). unfold history in HQ.
    now rewrite Hinit in HQ.
  - destruct (exec_snoc _ _ _ _ _ He) as (m0 & He0 & Hs).
    destruct (step_trace _ _ _ _ Hs) as [Ht | [e Ht]].
    + apply (IH m0 h' He0). unfold history in *. now rewrite <- Ht.
    + unfold history in Hp. rewrite Ht in Hp. cbn in Hp.
      apply prefix_snoc in Hp as [-> | Hp].
      * specialize (HQ _ _ He). unfold history in HQ. now rewrite Ht in HQ.
      * now apply (IH m0 h' He0).
Qed.

(** ** Machines that run request rounds *)

Ltac awaiter_facts :=
  repeat match goal with
         | H : handleResponse _ _ = Some _ |- _ =>
             apply handleResponse_inv in H;
             destruct H as (? & [(? & ? & ? & ? & ?)
                                | [(? & ? & ? & ? & ? & ?) | (? & ? & ? & ?)]])
         end;
  unfold awaiter_progress in *;
  repeat match goal with
         | H : h_control _ = _ |- _ => rewrite H in *
         end;
  repeat match goal with
         | H : InEnter _ = InEnter _ |- _ => injection H as H
         end;
  try match goal with
      | H : received ?s _ = _ |- _ => destruct s; discriminate H
      | H : InEnter _ = InTimer _ |- _ => discriminate H
      | H : InEnter _ = InFinished |- _ => discriminate H
      | H : InTimer _ = InEnter _ |- _ => discriminate H
      | H : InTimer _ = InFinished |- _ => discriminate H
      | H : InFinished = _ |- _ => discriminate H
      | H : terminal _ = true |- _ => discriminate H
      end.

(** Facts about the state before the step are brought to the shape the case
    analysis found, what [handleResponse] did is spelled out, and the
    pattern matchings of the invariant are split. *)
Ltac prune :=
  try discriminate;
  try (exfalso; tauto);
  try (exfalso; solve [intuition (discriminate || congruence)]).

Ltac settle_inv Hinv :=
  repeat match goal with
         | E : ?x = _ |- _ =>
             match type of Hinv with context [x] => rewrite E in Hinv end
         end;
  cbn in Hinv |- *;
  awaiter_facts;
  repeat (match type of Hinv with
          | context [match ?x with _ => _ end] => destruct x
          end; cbn in Hinv |- *; prune).

Ltac split_goal :=
  repeat (match goal with
          | |- context [match ?x with _ => _ end] => destruct x
          end; cbn in *; prune).

Lemma rounds_inv_step T m a m' :
  rounds_inv m -> step T m a = Some m' -> rounds_inv m'.
Proof.
  unfold rounds_inv. intros (Hc & Hl & Hinv) H.
  break_step H; settle_inv Hinv; split_goal;
    try (intuition (subst; cbn in *; try congruence; try lia)).
Qed.

Lemma rounds_inv_exec T acts m m' :
  rounds_inv m -> exec T m acts = Some m' -> rounds_inv m'.
Proof.
  apply (exec_invariant T rounds_inv). intros. eapply rounds_inv_step; eauto.
Qed.

Lemma timer_inv_step T m a m' :
  timer_inv m -> step T m a = Some m' -> timer_inv m'.
Proof.
  unfold timer_inv. intros Hinv H.
  break_step H; settle_inv Hinv; split_goal;
    try (intuition (subst; cbn in *; try congruence; try lia)).
Qed.

(** ** Counting events *)

Lemma count_app p l1 l2 : count p (l1 ++ l2) = (count p l1 + count p l2)%nat.
Proof.
  induction l1 as [| e l1 IH]; cbn; [reflexivity |].
  destruct (p e); cbn; now rewrite IH.
Qed.

Lemma count_rev p l : count p (rev l) = count p l.
Proof.
  induction l as [| e l IH]; cbn; [reflexivity |].
  rewrite count_app, IH. cbn. destruct (p e); lia.
Qed.

Lemma count_pos_In p l :
  (0 < count p l)%nat -> exists e, In e l /\ p e = true.
Proof.
  induction l as [| e l IH]; cbn; [lia |].
  destruct (p e) eqn:He.
  - intros _. exists e. auto.
  - intros H. destruct (IH H) as (e' & Hin & Hp). exists e'. auto.
Qed.

(** If at every moment the events [P2] are at most one ahead of the events
    [Q], which are never ahead of the events [P1], themselves never ahead of
    [P2], then between an event [P1] and a later event [P2] there is an event
    [Q]. *)
Lemma between (P1 P2 Q : Event -> bool) (h : list Event) :
  (forall e, P1 e = true -> Q e = false) ->
  (forall e, P2 e = true -> Q e = false) ->
  (forall h', prefix h' h ->
     (count P2 h' <= S (count Q h'))%nat /\
     (count Q h' <= count P1 h')%nat /\
     (count P1 h' <= count P2 h')%nat) ->
  forall pre e1 mid e2 post,
    h = pre ++ e1 :: mid ++ e2 :: post ->
    P1 e1 = true -> P2 e2 = true ->
    exists e, In e mid /\ Q e = true.
Proof.
  intros H1Q H2Q Hall pre e1 mid e2 post -> H1 H2.
  apply count_pos_In.
  destruct (Hall pre) as (_ & Ha & _).
  { eexists; reflexivity. }
  destruct (Hall (pre ++ [e1])) as (_ & _ & Hb).
  { exists (mid ++ e2 :: post). now rewrite <- app_assoc. }
  destruct (Hall (pre ++ e1 :: mid ++ [e2])) as (Hc & _ & _).
  { exists post. rewrite <- !app_assoc. cbn. rewrite <- app_assoc. reflexivity. }
  rewrite !count_app in Hb, Hc. cbn in Hb, Hc.
  rewrite !count_app in Hc. cbn in Hc.
  rewrite H1 in Hb. rewrite H2, (H1Q _ H1), (H2Q _ H2) in Hc.
  destruct (P2 e1), (P1 e2); lia.
Qed.

(** ** Histories *)

Lemma calls_of_app h1 h2 : calls_of (h1 ++ h2) = calls_of h1 ++ calls_of h2.
Proof.
  induction h1 as [| e h1 IH]; cbn; [reflexivity |].
  destruct e; cbn; now rewrite IH.
Qed.

Lemma outcomes_of_app h1 h2 :
  outcomes_of (h1 ++ h2) = outcomes_of h1 ++ outcomes_of h2.
Proof.
  induction h1 as [| e h1 IH]; cbn; [reflexivity |].
  destruct e; cbn; try apply IH.
  destruct (outcome_of i); cbn; now rewrite IH.
Qed.

(** ** Executions in which no channel is closed *)

Lemma no_close_step T m a m' :
  match a with Close _ _ => False | _ => True end ->
  closed m = [] /\ outcomes_only (trace m) ->
  step T m a = Some m' ->
  closed m' = [] /\ outcomes_only (trace m').
Proof.
  unfold outcomes_only. intros Ha (Hcl & Hall) H.
  break_step H; cbn; try contradiction;
    try (split; [assumption |]);
    try assumption;
    try (constructor; [| assumption]; cbn; eauto).
  - destruct ok; cbn; eauto.
  - unfold is_closed in *. rewrite Hcl in *. discriminate.
Qed.

Lemma no_close_exec T acts : forall m m',
  no_close acts -> closed m = [] -> trace m = [] ->
  exec T m acts = Some m' -> outcomes_only (history m').
Proof.
  assert (G : forall m m', no_close acts ->
              closed m = [] /\ outcomes_only (trace m) ->
              exec T m acts = Some m' ->
              closed m' = [] /\ outcomes_only (trace m')).
  { induction acts as [| a acts IH]; intros m m' Hn Hm; cbn.
    - now intros [= <-].
    - destruct (step T m a) as [m1 |] eqn:Hs; [| discriminate].
      inversion Hn as [| ? ? Ha Hn']; subst.
      apply IH; [assumption |]. eapply no_close_step; eauto. }
  intros m m' Hn Hcl Htr He.
  destruct (G m m' Hn) as [_ Ho]; [| assumption |].
  - split; [assumption |]. rewrite Htr. constructor.
  - unfold outcomes_only, history. now apply Forall_rev.
Qed.

(** ** The bootstrap *)

(** Whatever resolves a wait is an Outcome or the closure of a channel. *)
Lemma resolutions_step T m a m' :
  Forall (fun e => match e with
                   | EvResolved _ i => outcome_or_closure i
                   | _ => True
                   end) (trace m) ->
  step T m a = Some m' ->
  Forall (fun e => match e with
                   | EvResolved _ i => outcome_or_closure i
                   | _ => True
                   end) (trace m').
Proof.
  intros Hf H. unfold outcome_or_closure.
  break_step H; cbn; try assumption; constructor; try assumption;
    try exact I.
  - destruct ok; left; eexists; reflexivity.
  - destruct side; auto.
  - left. eexists. reflexivity.
Qed.

Lemma resolutions_exec T init acts m :
  trace init = [] -> exec T init acts = Some m ->
  forall now i, In (EvResolved now i) (history m) -> outcome_or_closure i.
Proof.
  intros Ht He now i Hin.
  assert (Hf : Forall (fun e => match e with
                                | EvResolved _ i => outcome_or_closure i
                                | _ => True
                                end) (trace m)).
  { revert He. apply (exec_invariant T
      (fun m => Forall (fun e => match e with
                                 | EvResolved _ i => outcome_or_closure i
                                 | _ => True
                                 end) (trace m))).
    - intros m0 a m1. apply resolutions_step.
    - rewrite Ht. constructor. }
  unfold history in Hin. apply in_rev in Hin.
  rewrite Forall_forall in Hf. exact (Hf _ Hin).
Qed.

Lemma bootstrap_requests auths stocks T :
  requests_of (SetUpChannelGroup stocks T ++ GrantPermissions auths stocks T)
  = bootstrap_plan auths stocks.
Proof. reflexivity. Qed.

Lemma bootstrap_rounds_inv auths stocks T t0 :
  rounds_inv (bootstrap auths stocks T t0).
Proof. unfold rounds_inv. cbn. auto 10. Qed.

(** Between the states of a machine that runs rounds: a request is in the
    history once its statement has left the body. *)
Lemma rounds_calls_step T m a m' :
  rounds_inv m -> step T m a = Some m' ->
  calls_of (history m') ++ requests_of (body m')
  = calls_of (history m) ++ requests_of (body m).
Proof.
  unfold rounds_inv, history. intros (Hc & Hl & Hinv) H.
  break_step H; settle_inv Hinv;
    rewrite ?calls_of_app; cbn; rewrite <- ?app_assoc; try reflexivity;
    try congruence.
Qed.

Lemma rounds_calls_exec T acts : forall m m',
  rounds_inv m -> exec T m acts = Some m' ->
  calls_of (history m') ++ requests_of (body m')
  = calls_of (history m) ++ requests_of (body m).
Proof.
  induction acts as [| a acts IH]; intros m m' Hinv; cbn.
  - now intros [= <-].
  - destruct (step T m a) as [m1 |] eqn:Hs; [| discriminate]. intros He.
    rewrite (IH m1 m' (rounds_inv_step _ _ _ _ Hinv Hs) He).
    eapply rounds_calls_step; eassumption.
Qed.

(** The events of a machine that runs rounds, counted. *)
Lemma rounds_inv_counts m :
  rounds_inv m ->
  let h := history m in
  (count is_call h <= S (count is_done h))%nat /\
  (count is_done h <= count is_resolved h)%nat /\
  (count is_resolved h <= count is_select h)%nat /\
  (count is_select h <= count is_await h)%nat /\
  (count is_await h <= count is_call h)%nat.
Proof.
  unfold rounds_inv, history. intros (Hc & Hl & Hinv). cbn zeta.
  rewrite !count_rev.
  settle_inv Hinv; intuition lia.
Qed.

(** The steps of a round, one statement or one move of [handleResponse]
    each. *)
Lemma step_advance T m d :
  crashed m = false -> 0 <= d ->
  step T m (Advance d) = Some (set_now (now m + d) m).
Proof.
  intros Hc Hd. unfold step. rewrite Hc.
  destruct (Z.leb_spec 0 d); [reflexivity | lia].
Qed.

Lemma step_make_chans T m inp rest :
  crashed m = false -> body m = MakeChans :: rest ->
  step T m (Run inp) = Some (m |> set_chans (S (chans m)) |> set_body rest).
Proof. intros Hc Hb. unfold step, run_stmt. now rewrite Hc, Hb. Qed.

Lemma step_go_request T m inp r rest :
  crashed m = false -> body m = GoRequest r :: rest ->
  step T m (Run inp)
  = Some (m |> set_calls ((chans m, r) :: calls m) |> set_body rest
            |> emit (EvCall r)).
Proof. intros Hc Hb. unfold step, run_stmt. now rewrite Hc, Hb. Qed.

Lemma step_go_await T m inp t rest :
  crashed m = false -> body m = GoHandleResponse t :: rest ->
  awaiter m = None ->
  step T m (Run inp)
  = Some (m |> set_awaiter (Some (chans m, mkAwaiter t HStart))
            |> set_body rest |> emit (EvAwait t)).
Proof. intros Hc Hb Ha. unfold step, run_stmt. now rewrite Hc, Hb, Ha. Qed.

Lemma step_enter T m g t :
  crashed m = false -> awaiter m = Some (g, mkAwaiter t HStart) ->
  step T m Enter
  = Some (m |> set_awaiter (Some (g, mkAwaiter t (HSelect (now m + Second * 3))))
            |> print [] |> emit (EvSelect (now m))).
Proof. intros Hc Ha. unfold step, deliver. now rewrite Hc, Ha. Qed.


Lemma step_fire T m g t d :
  crashed m = false -> awaiter m = Some (g, mkAwaiter t (HSelect d)) ->
  d <= now m ->
  step T m Fire
  = Some (m |> set_awaiter (Some (g, mkAwaiter t HFinish))
            |> print (reported (InTimer (now m)))
            |> emit (EvResolved (now m) (InTimer (now m)))).
Proof.
  intros Hc Ha Hd. unfold step, deliver. rewrite Hc, Ha.
  rewrite handleResponse_takes; [reflexivity | reflexivity |].
  intros now0 [= <-]. exact Hd.
Qed.

Lemma step_recv_done T m inp t rest :
  crashed m = false -> body m = RecvDone :: rest ->
  awaiter m = Some (chans m, mkAwaiter t HFinish) ->
  step T m (Run inp)
  = Some (m |> set_awaiter None |> print [] |> set_body rest |> emit EvDone).
Proof.
  intros Hc Hb Ha. unfold step, run_stmt.
  now rewrite Hc, Hb, Ha, Nat.eqb_refl.
Qed.






(** ** The loop of a stock *)

Ltac finish :=
  repeat match goal with
         | H : exists _, _ |- _ => destruct H
         | H : _ /\ _ |- _ => destruct H
         end;
  subst; cbn in *;
  repeat split; eauto; try congruence; try lia.

Lemma cycle_inv_step T m a m' :
  cycle_inv T m -> step T m a = Some m' -> cycle_inv T m'.
Proof.
  unfold cycle_inv, awaiter_inv, ahead, tick_order. intros Hinv H.
  break_step H; settle_inv Hinv; split_goal; finish.
Qed.

Lemma prefix_refl {A} (l : list A) : prefix l l.
Proof. exists []. now rewrite app_nil_r. Qed.

Lemma bootstrap_reaches_rounds_inv auths stocks T t0 acts m :
  exec T (bootstrap auths stocks T t0) acts = Some m ->
  rounds_inv m /\ timer_inv m.
Proof.
  intros He. split.
  - eapply rounds_inv_exec; [apply bootstrap_rounds_inv | exact He].
  - eapply (exec_invariant T timer_inv); [| | exact He].
    + intros. eapply timer_inv_step; eauto.
    + exact I.
Qed.




Lemma RunCycle_cycle_inv T t0 st : cycle_inv T (RunCycle t0 st).
Proof.
  unfold cycle_inv, awaiter_inv, ahead. cbn. eauto 12.
Qed.

Lemma cycle_inv_exec T t0 st acts m :
  exec T (RunCycle t0 st) acts = Some m -> cycle_inv T m.
Proof.
  apply (exec_invariant T (cycle_inv T)).
  - intros. eapply cycle_inv_step; eauto.
  - apply RunCycle_cycle_inv.
Qed.

Lemma cycle_inv_tick_order T m : cycle_inv T m -> tick_order (history m).
Proof.
  unfold cycle_inv, awaiter_inv, ahead, tick_order, history. intros Hinv.
  cbv zeta. rewrite !count_rev.
  destruct (crashed m); [exact Hinv |].
  settle_inv Hinv; finish.
Qed.

(** The order of events holds at every moment of every execution of the
    loop. *)
Lemma tick_order_always T t0 st acts m h' :
  exec T (RunCycle t0 st) acts = Some m ->
  prefix h' (history m) -> tick_order h'.
Proof.
  intros He Hp.
  apply (history_prefixes T (RunCycle t0 st) tick_order)
    with (acts := acts) (m := m); try assumption; [reflexivity |].
  intros acts0 m0 He0. eapply cycle_inv_tick_order, cycle_inv_exec, He0.
Qed.




Lemma latest_app cur h1 h2 : latest cur (h1 ++ h2) = latest (latest cur h1) h2.
Proof.
  revert cur. induction h1 as [| e h1 IH]; intros cur; cbn; [reflexivity |].
  destruct e; apply IH.
Qed.

Lemma published_app name cur h1 h2 :
  published name cur (h1 ++ h2) <->
  published name cur h1 /\ published name (latest cur h1) h2.
Proof.
  revert cur. induction h1 as [| e h1 IH]; intros cur; cbn; [tauto |].
  destruct e; try apply IH. rewrite IH. tauto.
Qed.

Lemma message_inv_step T st m a m' :
  cycle_inv T m -> message_inv st m -> step T m a = Some m' ->
  message_inv st m'.
Proof.
  unfold cycle_inv, message_inv, history.
  intros Hinv (Hname & Hpub & Hlat) H.
  break_step H; settle_inv Hinv; cbn;
    rewrite ?published_app, ?latest_app; cbn;
    repeat match goal with
           | Hu : UpdateValues _ _ _ _ = Some _ |- _ =>
               apply UpdateValues_Name in Hu
           end;
    repeat match type of Hlat with
           | context [body m] =>
               match goal with
               | E : body m = _ |- _ => rewrite E in Hlat
               end
           end;
    try (destruct (latest None (rev (trace m))) eqn:Hl; cbn in *);
    finish;
    try match goal with
        | E : body m = _ |- context [body m] => rewrite E; exact I
        end.
  eexists. split; [reflexivity |]. now rewrite Hname.
Qed.

Lemma message_inv_exec T t0 st acts m :
  exec T (RunCycle t0 st) acts = Some m -> message_inv st m.
Proof.
  intros He.
  assert (H : cycle_inv T m /\ message_inv st m); [| tauto].
  revert He.
  apply (exec_invariant T (fun m => cycle_inv T m /\ message_inv st m)).
  - intros m0 a m1 [Hc Hm] Hs. split.
    + eapply cycle_inv_step; eauto.
    + eapply message_inv_step; eauto.
  - split; [apply RunCycle_cycle_inv |].
    unfold message_inv. cbn. auto.
Qed.

(** The restriction of the machine to one [handleResponse] and one tick
    goroutine at a time loses nothing: [go handleResponse] is only reached
    when the previous one has exited, and [RunCycle] only starts a tick when
    the previous one has ended. *)
Lemma starts_never_blocked T m :
  rounds_inv m \/ cycle_inv T m -> crashed m = false ->
  (forall t rest, body m = GoHandleResponse t :: rest -> awaiter m = None) /\
  (forall i, loop m = LoopGo i -> body m = []).
Proof.
  intros [Hinv | Hinv] Hc.
  - destruct Hinv as (_ & Hl & Hinv). split.
    + intros t rest Hb. rewrite Hb in Hinv.
      destruct (awaiter m) as [[g h] |]; [| reflexivity].
      destruct rest as [| [] rest]; contradiction.
    + intros i Hi. congruence.
  - unfold cycle_inv in Hinv. rewrite Hc in Hinv. destruct Hinv as (_ & Hinv).
    split.
    + intros t rest Hb. rewrite Hb in Hinv. tauto.
    + intros i Hi. destruct (body m) as [| s rest]; [reflexivity |].
      destruct Hinv as ((j & Hj) & _). congruence.
Qed.


(** The other order is possible as well: the wait is resolved before the
    sleep is entered. *)
Lemma outcome_may_precede_sleep :
  exists m,
    exec 20 (RunCycle 0 MSFT)
         [Spawn; Run first_inputs; Run first_inputs; Run first_inputs;
          Run first_inputs; Enter; Answer 0 true "[1,Sent]";
          Run first_inputs] = Some m /\
    history m = [EvUpdate first_message;
                 EvCall (Publish "MSFT" first_message);
                 EvAwait 20; EvSelect 0;
                 EvResolved 0 (InSuccess (Value "[1,Sent]"));
                 EvSleep 17000].
Proof.
  eexists. split; [vm_compute; reflexivity | reflexivity].
Qed.



(** C4 as the specification states it fails on the code: the wait of the
    first tick is resolved by the closure of its success channel, no Outcome
    has been observed, and the second tick has computed its price. *)
Lemma tick_begins_after_closure :
  exists m,
    exec 20 (RunCycle 0 MSFT)
         [Spawn; Run first_inputs; Run first_inputs; Run first_inputs;
          Run first_inputs; Run first_inputs; Advance 20000;
          Run first_inputs; Enter; Close 1 true; SeeClosed true;
          Run first_inputs; Run first_inputs; Spawn; Run first_inputs]
    = Some m /\
    count is_update (history m) = 2%nat /\
    resolutions_of (history m) = [InSuccess Closed] /\
    outcomes_of (history m) = [] /\
    ~ ticks_after_outcome (history m).
Proof.
  eexists. split; [vm_compute; reflexivity |].
  split; [reflexivity |]. split; [reflexivity |]. split; [reflexivity |].
  intros H. specialize (H _ (prefix_refl _)). cbn in H. lia.
Qed.

(** C4, amended. The ticks of a stock are sequential: a tick does not begin
    until the wait for the publish request of the tick before has been
    resolved, by an Outcome (success, failure or timeout) or by the closure of
    one of the channels of that tick.  At every moment of every
    execution of its loop, the price updates and the publish requests begun
    are at most one more than the waits resolved, and no wait is resolved
    without its request: between the price updates of two ticks the request
    of the earlier tick is handed to the client and, after that, its wait is
    resolved; between two requests a wait is resolved.  Every resolution is
    an Outcome or a closure, and where no channel is closed every resolution
    is an Outcome.  Each request publishes the message of the latest update on
    the channel of the stock. *)
Theorem ticks_sequential T t0 st acts m :
  exec T (RunCycle t0 st) acts = Some m ->
  (forall h', prefix h' (history m) ->
     (count is_update h' <= S (count is_resolved h'))%nat /\
     (count is_call h' <= S (count is_resolved h'))%nat /\
     (count is_resolved h' <= count is_call h')%nat /\
     (count is_call h' <= count is_update h')%nat) /\
  (forall pre msg1 mid msg2 post,
     history m = pre ++ EvUpdate msg1 :: mid ++ EvUpdate msg2 :: post ->
     exists mid1 r mid2 now i mid3,
       mid = mid1 ++ EvCall r :: mid2 ++ EvResolved now i :: mid3) /\
  (forall pre r1 mid r2 post,
     history m = pre ++ EvCall r1 :: mid ++ EvCall r2 :: post ->
     exists now i, In (EvResolved now i) mid) /\
  (forall now i, In (EvResolved now i) (history m) -> outcome_or_closure i) /\
  (no_close acts -> outcomes_only (history m)) /\
  published (Name st) None (history m).
Proof.
  intros He.
  assert (Ho : forall h', prefix h' (history m) -> tick_order h')
    by (intros; eapply tick_order_always; eauto).
  split; [| split; [| split; [| split; [| split]]]].
  - intros h' Hp. specialize (Ho h' Hp). unfold tick_order in Ho.
    cbv zeta in Ho. lia.
  - intros pre msg1 mid msg2 post Hh.
    destruct (between is_update is_update is_call (history m)) with
      (pre := pre) (e1 := EvUpdate msg1) (mid := mid) (e2 := EvUpdate msg2)
      (post := post) as (e & Hin & Hcall); try reflexivity; try assumption.
    { now intros []. }
    { now intros []. }
    { intros h' Hp. specialize (Ho h' Hp). unfold tick_order in Ho.
      cbv zeta in Ho. lia. }
    destruct e as [| r | | | | | | | |]; try discriminate.
    apply in_split in Hin as (mid1 & mid' & ->).
    destruct (between is_call is_update is_resolved (history m)) with
      (pre := pre ++ EvUpdate msg1 :: mid1) (e1 := EvCall r) (mid := mid')
      (e2 := EvUpdate msg2) (post := post) as (e & Hin & Hres);
      try reflexivity.
    { now intros []. }
    { now intros []. }
    { intros h' Hp. specialize (Ho h' Hp). unfold tick_order in Ho.
      cbv zeta in Ho. lia. }
    { rewrite Hh. rewrite <- ?app_assoc. cbn. rewrite <- ?app_assoc.
      reflexivity. }
    destruct e as [| | | | now i | | | | |]; try discriminate.
    apply in_split in Hin as (mid2 & mid3 & ->).
    exists mid1, r, mid2, now, i, mid3. reflexivity.
  - intros pre r1 mid r2 post Hh.
    destruct (between is_call is_call is_resolved (history m)) with
      (pre := pre) (e1 := EvCall r1) (mid := mid) (e2 := EvCall r2)
      (post := post) as (e & Hin & Hres); try reflexivity; try assumption.
    { now intros []. }
    { now intros []. }
    { intros h' Hp. specialize (Ho h' Hp). unfold tick_order in Ho.
      cbv zeta in Ho. lia. }
    destruct e; try discriminate. eauto.
  - apply (resolutions_exec T (RunCycle t0 st) acts m eq_refl He).
  - intros Hn. eapply no_close_exec; [exact Hn | | | exact He]; reflexivity.
  - now destruct (message_inv_exec T _ _ _ _ He) as (_ & Hp & _).
Qed.

Lemma ticks_sequential_witness :
  exists m,
    exec 20 (RunCycle 0 MSFT)
         [Spawn; Run first_inputs; Run first_inputs; Run first_inputs;
          Run first_inputs; Run first_inputs; Advance 20000;
          Run first_inputs; Enter; Answer 0 true "[1,Sent]";
          Run first_inputs; Run first_inputs; Spawn; Run first_inputs]
    = Some m /\
    count is_update (history m) = 2%nat /\
    count is_resolved (history m) = 1%nat /\
    published "MSFT" None (history m).
Proof.
  assert (He : exists m,
    exec 20 (RunCycle 0 MSFT)
         [Spawn; Run first_inputs; Run first_inputs; Run first_inputs;
          Run first_inputs; Run first_inputs; Advance 20000;
          Run first_inputs; Enter; Answer 0 true "[1,Sent]";
          Run first_inputs; Run first_inputs; Spawn; Run first_inputs]
    = Some m /\
    count is_update (history m) = 2%nat /\
    count is_resolved (history m) = 1%nat).
  { eexists. split; [vm_compute; reflexivity |]. split; reflexivity. }
  destruct He as (m & He & Hu & Hr). exists m.
  split; [exact He |]. split; [exact Hu |]. split; [exact Hr |].
  exact (proj2 (proj2 (proj2 (proj2 (proj2
           (ticks_sequential 20 0 MSFT _ m He)))))).
Defined.

(** ** The timeout argument *)

Lemma handleResponse_forget t c i :
  handleResponse (mkAwaiter 0 c) i
  = option_map (fun r => (mkAwaiter 0 (h_control (fst r)), snd r))
               (handleResponse (mkAwaiter t c) i).
Proof.
  unfold handleResponse.
  destruct c, i as [? | [] | [] | ? |]; cbn; try reflexivity.
  destruct (_ <=? _); reflexivity.
Qed.

Lemma handleResponse_run_observed t t' c ins :
  observed (handleResponse_run (mkAwaiter t c) ins)
  = observed (handleResponse_run (mkAwaiter t' c) ins).
Proof.
  revert c. induction ins as [| i ins IH]; intros c; cbn; [reflexivity |].
  destruct (handleResponse (mkAwaiter t c) i) as [[h1 o1] |] eqn:H1;
  destruct (handleResponse (mkAwaiter t' c) i) as [[h2 o2] |] eqn:H2.
  - pose proof (handleResponse_forget t c i) as F1.
    pose proof (handleResponse_forget t' c i) as F2.
    rewrite H1 in F1. rewrite H2 in F2. rewrite F1 in F2.
    cbn in F2. injection F2 as Hc Ho. subst o2.
    apply handleResponse_timeout_kept in H1, H2. cbn in H1, H2.
    destruct h1 as [t1 c1], h2 as [t2 c2]. cbn in *. subst.
    specialize (IH c2).
    destruct (handleResponse_run (mkAwaiter t c2) ins) as [[h3 o3] |],
             (handleResponse_run (mkAwaiter t' c2) ins) as [[h4 o4] |];
      cbn in *; try discriminate; try reflexivity.
    injection IH as -> ->. reflexivity.
  - pose proof (handleResponse_forget t c i) as F1.
    pose proof (handleResponse_forget t' c i) as F2.
    rewrite H1 in F1. rewrite H2 in F2. rewrite F1 in F2. discriminate.
  - pose proof (handleResponse_forget t c i) as F1.
    pose proof (handleResponse_forget t' c i) as F2.
    rewrite H1 in F1. rewrite H2 in F2. rewrite F1 in F2. discriminate.
  - reflexivity.
Qed.

(** A step does not look at the timeout argument: it commutes with erasing
    it. *)
Lemma step_forget T m a :
  option_map forget (step T m a) = step 0 (forget m) a.
Proof.
  destruct m as [t0 st sm l b ch cl ca aw out tr cr].
  unfold step, run_stmt, deliver, forget, is_closed, option_map.
  cbn -[Z.add Z.mul Z.leb Second handleResponse].
  destruct cr; [reflexivity |].
  destruct aw as [[g [t c]] |], a;
    cbn -[Z.add Z.mul Z.leb Second handleResponse];
    try rewrite (handleResponse_forget t c);
    unfold option_map;
    repeat (match goal with
            | |- context [match ?x with _ => _ end] =>
                lazymatch x with
                | context [match _ with _ => _ end] => fail
                | _ => destruct x eqn:?
                end
            end;
            cbn -[Z.add Z.mul Z.leb Second handleResponse] in *;
            try discriminate);
    try reflexivity.
Qed.

Lemma exec_forget T acts : forall m,
  option_map forget (exec T m acts) = exec 0 (forget m) acts.
Proof.
  induction acts as [| a acts IH]; intros m; cbn; [reflexivity |].
  rewrite <- (step_forget T).
  destruct (step T m a) as [m' |]; cbn; [apply IH | reflexivity].
Qed.

Lemma selected_app sel h1 h2 :
  selected sel (h1 ++ h2) = selected (selected sel h1) h2.
Proof.
  revert sel. induction h1 as [| e h1 IH]; intros sel; cbn; [reflexivity |].
  destruct e; apply IH.
Qed.

Lemma timely_app sel h1 h2 :
  timely sel (h1 ++ h2) <-> timely sel h1 /\ timely (selected sel h1) h2.
Proof.
  revert sel. induction h1 as [| e h1 IH]; intros sel; cbn; [tauto |].
  destruct e; try apply IH.
  destruct i; try apply IH. rewrite IH. tauto.
Qed.

Lemma timely_inv_step T m a m' :
  timely_inv m -> step T m a = Some m' -> timely_inv m'.
Proof.
  unfold timely_inv, history. intros (Htl & Hinv) H.
  break_step H; settle_inv Hinv; cbn -[Z.add];
    rewrite ?timely_app, ?selected_app; cbn -[Z.add];
    repeat match goal with
           | |- context [received ?s _] => destruct s; cbn [received]
           end;
    split_goal; finish.
Qed.

Lemma timely_inv_exec T acts m m' :
  trace m = [] -> awaiter m = None ->
  exec T m acts = Some m' -> timely None (history m').
Proof.
  intros Ht Ha He.
  assert (H : timely_inv m'); [| now destruct H].
  revert He. apply (exec_invariant T timely_inv).
  - intros. eapply timely_inv_step; eauto.
  - unfold timely_inv, history. rewrite Ht, Ha. cbn. auto.
Qed.

(** C9. [handleResponse] ignores its timeout argument.  Whatever value is
    passed, its runs are the same, its timer is armed for three seconds
    after the select is entered, and the timer case is taken exactly from
    then on.  The executions of the bootstrap and of the loop of a stock,
    where every call site passes the timeout of the messaging library, are
    the same for every value of that timeout, and in all of them a wait
    resolved by the timer is resolved three seconds or more after its select
    was entered. *)
Theorem timeout_argument_ignored (timeout timeout' : Z) :
  (forall ins,
     observed (handleResponse_run (started timeout) ins)
     = observed (handleResponse_run (started timeout') ins)) /\
  (forall t0,
     handleResponse (started timeout) (InEnter t0)
     = Some (mkAwaiter timeout (HSelect (t0 + 3000000000)), [])) /\
  (forall t0 now,
     handleResponse (mkAwaiter timeout (HSelect (t0 + 3000000000)))
                    (InTimer now)
     = if t0 + 3000000000 <=? now
       then Some (mkAwaiter timeout HFinish, [report Timeout])
       else None) /\
  (forall auths stocks t0 acts,
     option_map forget (exec timeout (bootstrap auths stocks timeout t0) acts)
     = option_map forget
         (exec timeout' (bootstrap auths stocks timeout' t0) acts)) /\
  (forall t0 st acts,
     option_map forget (exec timeout (RunCycle t0 st) acts)
     = option_map forget (exec timeout' (RunCycle t0 st) acts)) /\
  (forall auths stocks t0 acts m,
     exec timeout (bootstrap auths stocks timeout t0) acts = Some m ->
     timely None (history m)) /\
  (forall t0 st acts m,
     exec timeout (RunCycle t0 st) acts = Some m ->
     timely None (history m)).
Proof.
  split; [| split; [| split; [| split; [| split; [| split]]]]].
  - intros ins. apply handleResponse_run_observed.
  - intros t0. reflexivity.
  - intros t0 now. reflexivity.
  - intros auths stocks t0 acts. rewrite !exec_forget. reflexivity.
  - intros t0 st acts. rewrite !exec_forget. reflexivity.
  - intros auths stocks t0 acts m. now apply timely_inv_exec.
  - intros t0 st acts m. now apply timely_inv_exec.
Qed.

Lemma timeout_argument_ignored_witness :
  let auths := mkAuths "pub" "sub" "sec" "auth" in
  let round := [Run no_inputs; Run no_inputs; Run no_inputs; Enter] in
  exec 1 (bootstrap auths [MSFT] 1 0) (round ++ [Advance 2999999999; Fire])
  = None /\
  exists m,
    exec 20 (bootstrap auths [MSFT] 20 0) (round ++ [Advance 3000000000; Fire])
    = Some m /\
    history m = [EvCall (ChannelGroupRemoveGroup "stockblast"); EvAwait 20;
                 EvSelect 0; EvResolved 3000000000 (InTimer 3000000000)] /\
    timely None (history m).
Proof.
  intros auths round. split; [vm_compute; reflexivity |].
  assert (He : exists m,
    exec 20 (bootstrap auths [MSFT] 20 0) (round ++ [Advance 3000000000; Fire])
    = Some m /\
    history m = [EvCall (ChannelGroupRemoveGroup "stockblast"); EvAwait 20;
                 EvSelect 0; EvResolved 3000000000 (InTimer 3000000000)]).
  { eexists. split; [vm_compute; reflexivity | reflexivity]. }
  destruct He as (m & He & Hh). exists m.
  split; [exact He |]. split; [exact Hh |].
  destruct (timeout_argument_ignored 20 20) as (_ & _ & _ & _ & _ & H & _).
  exact (H auths [MSFT] 0 _ m He).
Defined.

(** The select of a waiting [handleResponse] on a closed channel, as a step
    of the machine: taken at any clock reading, nothing is written. *)
Lemma step_see_closed T m g t d side :
  crashed m = false -> awaiter m = Some (g, mkAwaiter t (HSelect d)) ->
  is_closed g side m = true ->
  step T m (SeeClosed side)
  = Some (m |> set_awaiter (Some (g, mkAwaiter t HFinish)) |> print []
            |> emit (EvResolved (now m) (received side Closed))).
Proof.
  intros Hc Ha Hcl. unfold step, deliver. rewrite Hc, Ha, Hcl.
  rewrite handleResponse_takes; [| now destruct side |].
  - destruct side; reflexivity.
  - intros now0 H. destruct side; discriminate H.
Qed.

(** C10. The closure of the success channel or of the error channel is a
    terminal event for [handleResponse]: while it waits, the receive from
    the closed channel takes it out of its select at once, whatever the
    clock reads, to the same state as a delivered value or the timer does,
    and nothing is written to standard output; it then signals completion,
    and its caller receives the signal.  A run resolved by a closure
    completes with an empty output. *)
Theorem closed_channel_is_terminal (timeout deadline : Z) (side : bool) :
  let waiting := mkAwaiter timeout (HSelect deadline) in
  let finishing := mkAwaiter timeout HFinish in
  handleResponse waiting (received side Closed) = Some (finishing, []) /\
  (forall payload,
     handleResponse waiting (received side (Value payload))
     = Some (finishing, reported (received side (Value payload)))) /\
  (forall now, deadline <= now ->
     handleResponse waiting (InTimer now) = Some (finishing, [report Timeout])) /\
  handleResponse finishing InFinished = Some (mkAwaiter timeout HExit, []) /\
  (forall t0,
     handleResponse_run (started timeout)
       [InEnter t0; received side Closed; InFinished]
     = Some (mkAwaiter timeout HExit, [])) /\
  (forall T m g inp rest,
     crashed m = false -> awaiter m = Some (g, waiting) ->
     is_closed g side m = true ->
     g = chans m -> body m = RecvDone :: rest ->
     exists m',
       exec T m [SeeClosed side; Run inp] = Some m' /\
       stdout m' = stdout m /\ awaiter m' = None /\ body m' = rest /\
       history m' = history m ++ [EvResolved (now m) (received side Closed);
                                  EvDone]).
Proof.
  intros waiting finishing.
  split; [| split; [| split; [| split; [| split]]]].
  - destruct side; reflexivity.
  - intros payload. destruct side; reflexivity.
  - intros now Hd. unfold waiting, handleResponse. cbn.
    destruct (Z.leb_spec deadline now); [reflexivity | lia].
  - reflexivity.
  - intros t0. destruct side; reflexivity.
  - intros T m g inp rest Hc Ha Hcl -> Hb. cbn [exec].
    erewrite step_see_closed; [| exact Hc | exact Ha | exact Hcl].
    erewrite step_recv_done; [| exact Hc | exact Hb | reflexivity].
    eexists. split; [reflexivity |]. unfold history. cbn.
    rewrite <- app_assoc. auto.
Qed.

Lemma closed_channel_is_terminal_witness :
  let auths := mkAuths "pub" "sub" "sec" "auth" in
  exists m m',
    exec 20 (bootstrap auths [MSFT] 20 0)
         [Run no_inputs; Run no_inputs; Run no_inputs; Enter; Close 1 false]
    = Some m /\
    exec 20 m [SeeClosed false; Run no_inputs] = Some m' /\
    stdout m' = [] /\
    history m' = [EvCall (ChannelGroupRemoveGroup "stockblast"); EvAwait 20;
                  EvSelect 0; EvResolved 0 (InFailure Closed); EvDone].
Proof.
  intros auths.
  assert (He : exists m,
    exec 20 (bootstrap auths [MSFT] 20 0)
         [Run no_inputs; Run no_inputs; Run no_inputs; Enter; Close 1 false]
    = Some m /\
    crashed m = false /\
    awaiter m = Some (chans m, mkAwaiter 20 (HSelect 3000000000)) /\
    is_closed (chans m) false m = true /\
    (exists rest, body m = RecvDone :: rest) /\
    stdout m = [] /\ now m = 0 /\
    history m = [EvCall (ChannelGroupRemoveGroup "stockblast"); EvAwait 20;
                 EvSelect 0]).
  { eexists. split; [vm_compute; reflexivity |].
    repeat split; try reflexivity. eexists. reflexivity. }
  destruct He as (m & He & Hc & Ha & Hcl & (rest & Hb) & Hout & Hnow & Hh).
  destruct (closed_channel_is_terminal 20 3000000000 false)
    as (_ & _ & _ & _ & _ & H).
  destruct (H 20 m (chans m) no_inputs rest Hc Ha Hcl eq_refl Hb)
    as (m' & He' & Hout' & _ & _ & Hh').
  exists m, m'. split; [exact He |]. split; [exact He' |].
  split; [congruence |]. rewrite Hh', Hh, Hnow. reflexivity.
Defined.

(* ================================================================= *)
(** * Rounding *)




(* ================================================================= *)
(** * Part 7: further theorems *)

(** ** [Randn] and the width of its range *)

Lemma wrap_period (z k : Z) : wrap (z + k * 2 ^ 64) = wrap z.
Proof.
  unfold wrap. replace (z + k * 2 ^ 64 + 2 ^ 63) with (z + 2 ^ 63 + k * 2 ^ 64)
    by ring.
  now rewrite Z.mod_add by lia.
Qed.

Lemma wrap_is_int (z : Z) : is_int (wrap z).
Proof.
  unfold wrap, is_int, int_min, int_max.
  pose proof (Z.mod_pos_bound (z + 2 ^ 63) (2 ^ 64) ltac:(lia)). lia.
Qed.

(** X1. [Randn(min, max)] on two [int]s panics exactly when the width
    [max - min], computed in 64 bits, is not positive: when the range is
    empty or reversed by at most [2^63], and also when a non-empty range is
    wider than the largest [int].  On a range of a width up to the largest
    [int] it returns [min + sample mod (max - min)], an element of
    [[min, max)].  On a range reversed by more than [2^63] the width wraps to
    a positive number and the draw returns an [int] although the range is
    empty. *)
Theorem Randn_panics_iff (min max sample : Z) :
  is_int min -> is_int max ->
  (Randn min max sample = None <->
   (int_min <= max - min <= 0 \/ int_max < max - min)) /\
  (0 < max - min <= int_max ->
   Randn min max sample = Some (min + sample mod (max - min)) /\
   min <= min + sample mod (max - min) < max) /\
  (max - min < int_min ->
   exists v, Randn min max sample = Some v /\ is_int v /\ ~ (min <= v < max)).
Proof.
  intros Hmin Hmax.
  assert (Hcases : int_min <= max - min <= 0 \/ 0 < max - min <= int_max \/
                   int_max < max - min \/ max - min < int_min) by lia.
  assert (Hlow : int_min <= max - min <= 0 -> Randn min max sample = None).
  { intros H. unfold Randn, int_sub.
    rewrite wrap_small by (unfold is_int, int_min, int_max in *; lia).
    assert (E : Intn (max - min) sample = None) by (apply Intn_None; lia).
    now rewrite E. }
  assert (Hwide : int_max < max - min -> Randn min max sample = None).
  { intros H. unfold Randn, int_sub.
    rewrite <- (wrap_period (max - min) (-1)).
    rewrite wrap_small
      by (unfold is_int, int_min, int_max in *; lia).
    assert (E : Intn (max - min + -1 * 2 ^ 64) sample = None)
      by (apply Intn_None; unfold is_int, int_min, int_max in *; lia).
    now rewrite E. }
  assert (Hrev : max - min < int_min ->
     exists v, Randn min max sample = Some v /\ is_int v /\ ~ (min <= v < max)).
  { intros H. unfold Randn, int_sub.
    rewrite <- (wrap_period (max - min) 1).
    rewrite wrap_small
      by (unfold is_int, int_min, int_max in *; lia).
    rewrite Intn_pos by (unfold is_int, int_min, int_max in *; lia).
    eexists. split; [reflexivity |]. split; [apply wrap_is_int |].
    unfold int_min in H. lia. }
  split; [| split].
  - split.
    + intros Hn. destruct Hcases as [H | [H | [H | H]]]; auto.
      * destruct (Randn_in_range min max sample) as [E _]; try assumption;
          try lia. congruence.
      * destruct (Hrev H) as (v & E & _). congruence.
    + intros [H | H]; auto.
  - intros H. apply Randn_in_range; try assumption; lia.
  - exact Hrev.
Qed.

Lemma Randn_panics_iff_witness :
  Randn (-1) int_max 5 = None /\
  Randn int_max int_min 5 = Some int_max.
Proof.
  assert (H1 : is_int (-1)) by (unfold is_int, int_min, int_max; lia).
  assert (H2 : is_int int_max) by (unfold is_int, int_min, int_max; lia).
  split.
  - apply (Randn_panics_iff (-1) int_max 5 H1 H2). right.
    unfold int_max. lia.
  - reflexivity.
Defined.

(** ** The stock of a loop *)

Lemma UpdateValues_same_parameters s clock sample1 sample2 msg s' :
  UpdateValues s clock sample1 sample2 = Some (msg, s') ->
  same_parameters s s'.
Proof.
  intros Hu.
  destruct (UpdateValues_Some _ _ _ _ _ _ Hu) as (k & r & _ & _ & _ & ->).
  repeat split.
Qed.

Lemma UpdateValues_settled s clock sample1 sample2 msg s' :
  UpdateValues s clock sample1 sample2 = Some (msg, s') -> settled s'.
Proof.
  intros Hu.
  destruct (UpdateValues_Some _ _ _ _ _ _ Hu) as (k & r & _ & _ & _ & ->).
  unfold settled. cbn.
  destruct (exceeds (percentage_of (InitialPrice s) (new_price s k))
                    (MaxDelta s)) eqn:He; auto.
Qed.

Lemma same_parameters_step T st m a m' :
  same_parameters st (stock m) -> step T m a = Some m' ->
  same_parameters st (stock m').
Proof.
  intros Hp H. break_step H; cbn; try assumption.
  match goal with
  | Hu : UpdateValues _ _ _ _ = Some _ |- _ =>
      pose proof (UpdateValues_same_parameters _ _ _ _ _ _ Hu) as Hp'
  end.
  unfold same_parameters in *. intuition congruence.
Qed.

Lemma stock_inv_step T st m a m' :
  same_parameters st (stock m) /\ (stock m = st \/ settled (stock m)) ->
  step T m a = Some m' ->
  same_parameters st (stock m') /\ (stock m' = st \/ settled (stock m')).
Proof.
  intros (Hp & Hs) H. break_step H; cbn; try (split; assumption).
  match goal with
  | Hu : UpdateValues _ _ _ _ = Some _ |- _ =>
      pose proof (UpdateValues_same_parameters _ _ _ _ _ _ Hu) as Hp';
      pose proof (UpdateValues_settled _ _ _ _ _ _ Hu) as Hs'
  end.
  split; [| auto].
  unfold same_parameters in *. intuition congruence.
Qed.

(** X3. A loop writes nothing of its stock but the current price, and
    after every price update the stock is settled: its current price is the
    initial price, or the rounded percentage of its deviation does not exceed
    [MaxDelta/100].  Until the first update the stock is as it was loaded. *)
Theorem stock_stays_settled T t0 st acts m :
  exec T (RunCycle t0 st) acts = Some m ->
  same_parameters st (stock m) /\
  (stock m = st \/ settled (stock m)) /\
  ((0 < count is_update (history m))%nat -> settled (stock m)).
Proof.
  intros He.
  assert (H : (same_parameters st (stock m) /\
               (stock m = st \/ settled (stock m))) /\
              (count is_update (trace m) = 0%nat -> stock m = st)).
  { revert He.
    apply (exec_invariant T
             (fun m => (same_parameters st (stock m) /\
                        (stock m = st \/ settled (stock m))) /\
                       (count is_update (trace m) = 0%nat -> stock m = st))).
    - intros m0 a m1 [Hinv Hz] Hs.
      split; [eapply stock_inv_step; eauto |].
      break_step Hs; cbn; try assumption; discriminate.
    - cbn. repeat split; auto. }
  destruct H as ((Hp & Hs) & Hz).
  split; [exact Hp |]. split; [exact Hs |].
  unfold history. rewrite count_rev. intros Hpos.
  destruct Hs as [Hs | Hs]; [| exact Hs].
  (* the stock is as loaded although an update took place: the update
     itself left it settled *)
  revert He Hpos Hs.
  assert (G : forall m0,
             exec T (RunCycle t0 st) acts = Some m0 ->
             (0 < count is_update (trace m0))%nat -> settled (stock m0));
    [| intros He Hpos _; now apply G].
  intros m0.
  apply (exec_invariant T
           (fun m => (0 < count is_update (trace m))%nat -> settled (stock m))).
  - intros m1 a m2 Hinv Hs'.
    break_step Hs'; cbn; try assumption.
    intros _. eapply UpdateValues_settled; eassumption.
  - cbn. lia.
Qed.

Lemma stock_stays_settled_witness :
  exists m,
    exec 20 (RunCycle 0 (mkStock "MSFT" 100 0 10 20 10 1))
         [Spawn; Run (mkInputs "11:59:59am" 9 5)] = Some m /\
    CurrentPrice (stock m) = 100%float /\ settled (stock m).
Proof.
  assert (He : exists m,
    exec 20 (RunCycle 0 (mkStock "MSFT" 100 0 10 20 10 1))
         [Spawn; Run (mkInputs "11:59:59am" 9 5)] = Some m /\
    CurrentPrice (stock m) = 100%float /\
    (0 < count is_update (history m))%nat).
  { eexists. split; [vm_compute; reflexivity |]. split; [reflexivity |].
    cbn. lia. }
  destruct He as (m & He & Hc & Hu). exists m.
  split; [exact He |]. split; [exact Hc |].
  exact (proj2 (proj2 (stock_stays_settled 20 0 _ _ m He)) Hu).
Defined.

(** ** The steps of a tick *)

Lemma step_spawn T m i :
  crashed m = false -> loop m = LoopGo i -> body m = [] ->
  step T m Spawn
  = Some (m |> set_body (UpdateValuesAndPublish T) |> set_loop (LoopRecv i)).
Proof. intros Hc Hl Hb. unfold step. now rewrite Hc, Hl, Hb. Qed.

Lemma step_update T m inp rest msg st :
  crashed m = false -> body m = UpdateValuesStmt :: rest ->
  UpdateValues (stock m) (clock inp) (sample1 inp) (sample2 inp)
    = Some (msg, st) ->
  step T m (Run inp)
  = Some (m |> set_stock st |> set_streamMessage msg |> set_body rest
            |> emit (EvUpdate msg)).
Proof. intros Hc Hb Hu. unfold step, run_stmt. now rewrite Hc, Hb, Hu. Qed.

Lemma step_update_panic T m inp rest :
  crashed m = false -> body m = UpdateValuesStmt :: rest ->
  UpdateValues (stock m) (clock inp) (sample1 inp) (sample2 inp) = None ->
  step T m (Run inp) = Some (panic m).
Proof. intros Hc Hb Hu. unfold step, run_stmt. now rewrite Hc, Hb, Hu. Qed.

Lemma step_go_publish T m inp rest :
  crashed m = false -> body m = GoPublish :: rest ->
  step T m (Run inp)
  = Some (m |> set_calls
                 ((chans m, Publish (Name (stock m)) (streamMessage m))
                  :: calls m)
            |> set_body rest
            |> emit (EvCall (Publish (Name (stock m)) (streamMessage m)))).
Proof. intros Hc Hb. unfold step, run_stmt. now rewrite Hc, Hb. Qed.

Lemma step_sleep T m inp rest sleep :
  crashed m = false -> body m = SleepRandn :: rest ->
  Randn (MinTrade (stock m)) (MaxTrade (stock m)) (sample1 inp) = Some sleep ->
  step T m (Run inp)
  = Some (m |> set_body (Sleeping (now m + int_mul sleep Microsecond) :: rest)
            |> emit (EvSleep (int_mul sleep Microsecond))).
Proof. intros Hc Hb Hr. unfold step, run_stmt. now rewrite Hc, Hb, Hr. Qed.

Lemma step_sleep_panic T m inp rest :
  crashed m = false -> body m = SleepRandn :: rest ->
  Randn (MinTrade (stock m)) (MaxTrade (stock m)) (sample1 inp) = None ->
  step T m (Run inp) = Some (panic m).
Proof. intros Hc Hb Hr. unfold step, run_stmt. now rewrite Hc, Hb, Hr. Qed.

Lemma step_wake T m inp rest wake :
  crashed m = false -> body m = Sleeping wake :: rest -> wake <= now m ->
  step T m (Run inp) = Some (m |> set_body rest |> emit EvWake).
Proof.
  intros Hc Hb Hw. unfold step, run_stmt. rewrite Hc, Hb.
  destruct (Z.leb_spec wake (now m)); [reflexivity | lia].
Qed.

Lemma step_send_cycle T m inp rest i :
  crashed m = false -> body m = SendCycle :: rest -> loop m = LoopRecv i ->
  step T m (Run inp)
  = Some (m |> set_loop (LoopGo (int_add i 1))
            |> print [("Iteration #" ++ Sprintf_d i)%string]
            |> set_body rest |> emit (EvCycle i)).
Proof. intros Hc Hb Hl. unfold step, run_stmt. now rewrite Hc, Hb, Hl. Qed.

(** ** Panics of a loop *)

Lemma drawable_same s s' :
  same_parameters s s' -> drawable s -> drawable s'.
Proof.
  unfold same_parameters, drawable. intros (_ & _ & -> & -> & -> & _). auto.
Qed.

Lemma drawable_update s clock sample1 sample2 :
  drawable s -> exists msg s', UpdateValues s clock sample1 sample2 = Some (msg, s').
Proof. intros (Hi & Hv & _). now apply UpdateValues_runs. Qed.

Lemma drawable_sleep s sample :
  drawable s -> exists sleep, Randn (MinTrade s) (MaxTrade s) sample = Some sleep.
Proof.
  intros (_ & _ & Hw). unfold Randn. rewrite Intn_pos by exact Hw. eauto.
Qed.

Lemma UpdateValues_volatility s clock sample1 sample2 msg s' :
  is_int (Volatility s) ->
  UpdateValues s clock sample1 sample2 = Some (msg, s') ->
  0 < Volatility s < 1000.
Proof.
  intros Hi Hu.
  destruct (UpdateValues_Some _ _ _ _ _ _ Hu) as (k & r & Hk & Hr & _).
  destruct (Intn_Some _ _ _ Hk) as (Hpos & _).
  destruct (Z.lt_ge_cases (Volatility s) 1000) as [? | Hge]; [lia |].
  rewrite Randn_empty in Hr; try assumption; try discriminate;
    unfold is_int, int_min, int_max in *; lia.
Qed.

(** X4. A loop panics only in a draw, and only on parameters that make a
    draw impossible.  With a volatility strictly between 0 and 1000 and a
    positive 64-bit width [MaxTrade - MinTrade], no execution of the loop ever
    panics.  With a volatility outside that range the first price update
    panics; with such a volatility but a width that is not positive the first
    tick panics when it draws its sleep, after its request was handed to the
    client. *)
Theorem loop_panics_iff T t0 st :
  is_int (Volatility st) ->
  (drawable st ->
   forall acts m, exec T (RunCycle t0 st) acts = Some m ->
     crashed m = false /\ ~ In EvPanic (history m)) /\
  (~ 0 < Volatility st < 1000 ->
   forall inp, exists m,
     exec T (RunCycle t0 st) [Spawn; Run inp] = Some m /\
     crashed m = true /\ history m = [EvPanic]) /\
  (0 < Volatility st < 1000 -> int_sub (MaxTrade st) (MinTrade st) <= 0 ->
   forall inp1 inp2 inp3 inp4 inp5, exists m msg,
     exec T (RunCycle t0 st)
          [Spawn; Run inp1; Run inp2; Run inp3; Run inp4; Run inp5] = Some m /\
     crashed m = true /\
     history m = [EvUpdate msg; EvCall (Publish (Name st) msg); EvAwait T;
                  EvPanic]).
Proof.
  intros Hi. split; [| split].
  - intros Hd acts m He.
    assert (H : crashed m = false /\ same_parameters st (stock m) /\
                ~ In EvPanic (trace m)).
    { revert He.
      apply (exec_invariant T
               (fun m => crashed m = false /\ same_parameters st (stock m) /\
                         ~ In EvPanic (trace m))).
      - intros m0 a m1 (Hc & Hp & Hn) Hs.
        pose proof (drawable_same _ _ Hp Hd) as Hd0.
        assert (Hp1 : same_parameters st (stock m1)).
        { eapply same_parameters_step; eassumption. }
        split; [| split; [exact Hp1 |]].
        + break_step Hs; cbn; try assumption; try reflexivity; exfalso.
          * match goal with
            | Hu : UpdateValues _ ?c ?s1 ?s2 = None |- _ =>
                destruct (drawable_update _ c s1 s2 Hd0) as (? & ? & E);
                congruence
            end.
          * match goal with
            | Hu : Randn _ _ ?s = None |- _ =>
                destruct (drawable_sleep _ s Hd0) as (? & E); congruence
            end.
        + break_step Hs; cbn; try assumption;
            try (intros [E | E]; [discriminate E | exact (Hn E)]);
            exfalso.
          * match goal with
            | Hu : UpdateValues _ ?c ?s1 ?s2 = None |- _ =>
                destruct (drawable_update _ c s1 s2 Hd0) as (? & ? & E);
                congruence
            end.
          * match goal with
            | Hu : Randn _ _ ?s = None |- _ =>
                destruct (drawable_sleep _ s Hd0) as (? & E); congruence
            end.
      - cbn. repeat split; auto. }
    destruct H as (Hc & _ & Hn). split; [exact Hc |].
    unfold history. now rewrite <- in_rev.
  - intros Hv inp.
    assert (Hu : UpdateValues st (clock inp) (sample1 inp) (sample2 inp) = None).
    { destruct (UpdateValues st (clock inp) (sample1 inp) (sample2 inp))
        as [[msg s'] |] eqn:E; [| reflexivity].
      pose proof (UpdateValues_volatility _ _ _ _ _ _ Hi E). contradiction. }
    cbn [exec].
    erewrite step_spawn; [| reflexivity ..].
    erewrite step_update_panic; [| reflexivity | reflexivity | exact Hu].
    eexists. split; [reflexivity |]. split; reflexivity.
  - intros Hv Hw inp1 inp2 inp3 inp4 inp5.
    destruct (UpdateValues_runs st (clock inp1) (sample1 inp1) (sample2 inp1)
                Hi Hv) as (msg & s' & Hu).
    destruct (UpdateValues_same_parameters _ _ _ _ _ _ Hu)
      as (Hn & _ & Hmin & Hmax & _).
    assert (Hs : Randn (MinTrade s') (MaxTrade s') (sample1 inp5) = None).
    { unfold Randn. rewrite Hmin, Hmax.
      assert (E : Intn (int_sub (MaxTrade st) (MinTrade st)) (sample1 inp5)
                  = None) by (now apply Intn_None).
      now rewrite E. }
    cbn [exec].
    erewrite step_spawn; [| reflexivity ..].
    erewrite step_update; [| reflexivity | reflexivity | exact Hu].
    erewrite step_make_chans; [| reflexivity ..].
    erewrite step_go_publish; [| reflexivity ..].
    erewrite step_go_await; [| reflexivity ..].
    erewrite step_sleep_panic; [| reflexivity | reflexivity | exact Hs].
    eexists. exists msg. split; [reflexivity |].
    split; [reflexivity |]. unfold history. cbn. now rewrite Hn.
Qed.

(** ** Progress of a loop *)

Ltac on_later lemma :=
  eapply lemma;
  cbn [crashed body loop awaiter now stock chans set_now]; eauto.

Lemma cycle_progress T m (inp : Inputs) :
  cycle_inv T m -> timer_inv m -> crashed m = false ->
  exists d a m',
    0 <= d /\ moves a = true /\ exec T m [Advance d; a] = Some m'.
Proof.
  unfold cycle_inv, awaiter_inv, timer_inv. intros Hinv Ht Hc.
  rewrite Hc in Hinv. destruct Hinv as (Ha & Hinv).
  assert (Hadv : forall d, 0 <= d ->
            step T m (Advance d) = Some (set_now (now m + d) m))
    by (intros; now apply step_advance).
  assert (Hrun : forall d a m',
            0 <= d -> moves a = true ->
            step T (set_now (now m + d) m) a = Some m' ->
            exists d a m',
              0 <= d /\ moves a = true /\ exec T m [Advance d; a] = Some m').
  { intros d a m' Hd Hm Hs. exists d, a, m'. repeat split; try assumption.
    cbn [exec]. now rewrite (Hadv d Hd), Hs. }
  destruct (body m) as [| s rest] eqn:Hb.
  - destruct Hinv as ((i & Hl) & _).
    eapply (Hrun 0 Spawn); [lia | reflexivity |].
    on_later step_spawn.
  - destruct Hinv as ((i & Hl) & Hinv).
    destruct s.
    + destruct (UpdateValues (stock m) (clock inp) (sample1 inp) (sample2 inp))
        as [[msg st] |] eqn:Hu.
      * eapply (Hrun 0 (Run inp)); [lia | reflexivity |].
        on_later step_update.
      * eapply (Hrun 0 (Run inp)); [lia | reflexivity |].
        on_later step_update_panic.
    + eapply (Hrun 0 (Run inp)); [lia | reflexivity |].
      on_later step_make_chans.
    + contradiction.
    + eapply (Hrun 0 (Run inp)); [lia | reflexivity |].
      on_later step_go_publish.
    + destruct Hinv as (_ & Hn & _).
      eapply (Hrun 0 (Run inp)); [lia | reflexivity |].
      on_later step_go_await.
    + destruct (Randn (MinTrade (stock m)) (MaxTrade (stock m)) (sample1 inp))
        as [sleep |] eqn:Hr.
      * eapply (Hrun 0 (Run inp)); [lia | reflexivity |].
        on_later step_sleep.
      * eapply (Hrun 0 (Run inp)); [lia | reflexivity |].
        on_later step_sleep_panic.
    + eapply (Hrun (Z.max 0 (wake - now m)) (Run inp)); [lia | reflexivity |].
      on_later step_wake; cbn; lia.
    + destruct Hinv as (_ & Hn & _).
      destruct (awaiter m) as [[g [t c]] |] eqn:Haw; [| contradiction].
      destruct Ha as (-> & Hp). unfold awaiter_progress in Hp.
      cbn [h_control] in Hp, Ht.
      destruct c as [| dl | |]; [| | | contradiction].
      * eapply (Hrun 0 Enter); [lia | reflexivity |].
        on_later step_enter.
      * eapply (Hrun (Second * 3) Fire);
          [unfold Second, Nanosecond; lia | reflexivity |].
        on_later step_fire; cbn; lia.
      * eapply (Hrun 0 (Run inp)); [lia | reflexivity |].
        on_later step_recv_done.
    + eapply (Hrun 0 (Run inp)); [lia | reflexivity |].
      on_later step_send_cycle.
Qed.

Lemma loop_panics_iff_witness :
  exists m,
    exec 20 (RunCycle 0 MSFT) first_tick = Some m /\
    crashed m = false /\ ~ In EvPanic (history m).
Proof.
  assert (He : exists m, exec 20 (RunCycle 0 MSFT) first_tick = Some m).
  { eexists. vm_compute. reflexivity. }
  destruct He as (m & He). exists m. split; [exact He |].
  assert (Hi : is_int (Volatility MSFT)) by (vm_compute; split; discriminate).
  assert (Hd : drawable MSFT).
  { split; [exact Hi |]. vm_compute. repeat split; discriminate. }
  exact (proj1 (loop_panics_iff 20 0 MSFT Hi) Hd first_tick m He).
Defined.

(** X5. The loop of a stock never deadlocks: in every state it reaches
    without a panic, once enough time has passed (none, the rest of a sleep,
    or the three seconds of the timer), one of its goroutines can take a
    step. *)
Theorem loop_never_stuck T t0 st acts m :
  exec T (RunCycle t0 st) acts = Some m -> crashed m = false ->
  exists d a m',
    0 <= d /\ moves a = true /\ exec T m [Advance d; a] = Some m'.
Proof.
  intros He Hc. apply (cycle_progress T m no_inputs); [| | exact Hc].
  - eapply cycle_inv_exec; eassumption.
  - revert He. apply (exec_invariant T timer_inv).
    + intros. eapply timer_inv_step; eauto.
    + exact I.
Qed.

Lemma loop_never_stuck_witness :
  exists m d a m',
    exec 20 (RunCycle 0 MSFT) first_tick = Some m /\
    0 <= d /\ moves a = true /\ exec 20 m [Advance d; a] = Some m'.
Proof.
  assert (He : exists m,
    exec 20 (RunCycle 0 MSFT) first_tick = Some m /\ crashed m = false).
  { eexists. split; [vm_compute; reflexivity | reflexivity]. }
  destruct He as (m & He & Hc).
  destruct (loop_never_stuck 20 0 MSFT first_tick m He Hc)
    as (d & a & m' & H).
  exists m, d, a, m'. split; [exact He | exact H].
Defined.

(** ** What the program prints *)

Lemma wrap_add_l (a b : Z) : wrap (wrap a + b) = wrap (a + b).
Proof.
  unfold wrap.
  replace ((a + 2 ^ 63) mod 2 ^ 64 - 2 ^ 63 + b + 2 ^ 63)
    with ((a + 2 ^ 63) mod 2 ^ 64 + b) by ring.
  rewrite Zplus_mod_idemp_l. f_equal. f_equal. ring.
Qed.

Lemma cycles_of_app h1 h2 : cycles_of (h1 ++ h2) = cycles_of h1 ++ cycles_of h2.
Proof.
  induction h1 as [| e h1 IH]; cbn; [reflexivity |].
  destruct e; cbn; now rewrite IH.
Qed.

(** The number [RunCycle] prints in its iteration [k]. *)
Lemma numbering_step T m a m' :
  let inv m :=
    let n := count is_cycle (trace m) in
    match loop m with
    | LoopOff => True
    | LoopGo i | LoopRecv i => i = wrap (Z.of_nat n)
    end /\
    cycles_of (history m) = map (fun k => wrap (Z.of_nat k)) (seq 0 n) in
  inv m -> step T m a = Some m' -> inv m'.
Proof.
  cbv zeta. unfold history. intros (Hl & Hcy) H.
  break_step H; cbn -[wrap Z.of_nat seq];
    rewrite ?cycles_of_app; cbn -[wrap Z.of_nat seq]; rewrite ?app_nil_r;
    try (split; assumption);
    repeat match goal with
           | E : loop m = _ |- _ => rewrite E in Hl
           end;
    try (split; [exact Hl | exact Hcy]).
  all: subst; try (split; [reflexivity | assumption]).
  split.
  - unfold int_add. rewrite wrap_add_l. f_equal. lia.
  - rewrite seq_S, map_app, Hcy. reflexivity.
Qed.

Lemma numbering_exec T t0 st acts m :
  exec T (RunCycle t0 st) acts = Some m ->
  cycles_of (history m)
  = map (fun k => wrap (Z.of_nat k)) (seq 0 (count is_cycle (history m))).
Proof.
  intros He.
  assert (G : match loop m with
              | LoopOff => True
              | LoopGo i | LoopRecv i =>
                  i = wrap (Z.of_nat (count is_cycle (trace m)))
              end /\
              cycles_of (history m)
              = map (fun k => wrap (Z.of_nat k))
                    (seq 0 (count is_cycle (trace m)))).
  { revert He.
    apply (exec_invariant T
             (fun m => match loop m with
                       | LoopOff => True
                       | LoopGo i | LoopRecv i =>
                           i = wrap (Z.of_nat (count is_cycle (trace m)))
                       end /\
                       cycles_of (history m)
                       = map (fun k => wrap (Z.of_nat k))
                             (seq 0 (count is_cycle (trace m))))).
    - intros m0 a m1 Hinv Hs. exact (numbering_step T m0 a m1 Hinv Hs).
    - split; reflexivity. }
  destruct G as [_ G]. unfold history at 2. now rewrite count_rev.
Qed.

(** X6. [RunCycle] numbers its iterations from 0 without a gap: the numbers
    it has printed after [n] completed ticks are [0, 1, .., n-1] (taken in 64
    bits, so as they are for fewer than [2^63] ticks). *)
Theorem iterations_numbered T t0 st acts m :
  exec T (RunCycle t0 st) acts = Some m ->
  let n := count is_cycle (history m) in
  cycles_of (history m) = map (fun k => wrap (Z.of_nat k)) (seq 0 n) /\
  (Z.of_nat n <= int_max + 1 ->
   cycles_of (history m) = map Z.of_nat (seq 0 n)).
Proof.
  intros He n.
  pose proof (numbering_exec T t0 st acts m He) as H. fold n in H.
  split; [exact H |].
  intros Hn. rewrite H. apply map_ext_in. intros k Hk.
  apply in_seq in Hk. apply wrap_small.
  unfold is_int, int_min, int_max in *. lia.
Qed.

Lemma iterations_numbered_witness :
  exists m,
    exec 20 (RunCycle 0 MSFT)
         [Spawn; Run first_inputs; Run first_inputs; Run first_inputs;
          Run first_inputs; Run first_inputs; Advance 20000;
          Run first_inputs; Enter; Answer 0 true "[1,Sent]";
          Run first_inputs; Run first_inputs; Spawn; Run first_inputs]
    = Some m /\
    cycles_of (history m) = [0].
Proof.
  assert (He : exists m,
    exec 20 (RunCycle 0 MSFT)
         [Spawn; Run first_inputs; Run first_inputs; Run first_inputs;
          Run first_inputs; Run first_inputs; Advance 20000;
          Run first_inputs; Enter; Answer 0 true "[1,Sent]";
          Run first_inputs; Run first_inputs; Spawn; Run first_inputs]
    = Some m /\
    count is_cycle (history m) = 1%nat).
  { eexists. split; [vm_compute; reflexivity | reflexivity]. }
  destruct He as (m & He & Hn). exists m. split; [exact He |].
  destruct (iterations_numbered 20 0 MSFT _ m He) as [H _].
  rewrite H, Hn. reflexivity.
Defined.

Lemma flat_map_printed_snoc h e :
  flat_map printed (h ++ [e]) = flat_map printed h ++ printed e.
Proof. rewrite flat_map_app. cbn. now rewrite app_nil_r. Qed.

Lemma printed_step T m a m' :
  rev (stdout m) = flat_map printed (history m) ->
  step T m a = Some m' ->
  rev (stdout m') = flat_map printed (history m').
Proof.
  unfold history. intros Hinv H.
  break_step H; awaiter_facts; subst; cbn -[reported];
    rewrite ?flat_map_printed_snoc, ?rev_app_distr, ?rev_involutive;
    cbn -[reported]; rewrite ?app_nil_r, <- ?Hinv; try reflexivity.
Qed.

Lemma printed_exec T init acts m :
  stdout init = [] -> trace init = [] ->
  exec T init acts = Some m ->
  rev (stdout m) = flat_map printed (history m).
Proof.
  intros Hs Ht.
  apply (exec_invariant T
           (fun m => rev (stdout m) = flat_map printed (history m))).
  - intros m0 a m1. apply printed_step.
  - unfold history. now rewrite Hs, Ht.
Qed.

Lemma prefix_app_l {A} (p h t : list A) : prefix p h -> prefix p (h ++ t).
Proof. intros [r ->]. exists (r ++ t). now rewrite app_assoc. Qed.

Lemma tick_lines_app k os os' :
  tick_lines k (os ++ os') = tick_lines k os ++ tick_lines (k + List.length os) os'.
Proof.
  revert k. induction os as [| o os IH]; intros k; cbn.
  - now rewrite Nat.add_0_r.
  - rewrite IH. now rewrite Nat.add_succ_r.
Qed.

Lemma tick_lines_length k os : List.length (tick_lines k os) = (2 * List.length os)%nat.
Proof.
  revert k. induction os as [| o os IH]; intros k; cbn; [reflexivity |].
  rewrite IH. lia.
Qed.

Lemma outcomes_only_app h1 h2 :
  outcomes_only (h1 ++ h2) <-> outcomes_only h1 /\ outcomes_only h2.
Proof. unfold outcomes_only. apply Forall_app. Qed.

Lemma outcomes_only_length h :
  outcomes_only h -> List.length (outcomes_of h) = count is_resolved h.
Proof.
  induction h as [| e h IH]; intros Ho; [reflexivity |].
  inversion Ho as [| ? ? He Hh]; subst.
  destruct e; cbn; auto.
  destruct He as [o ->]. cbn. now rewrite IH.
Qed.

(** The lines of a history in which reports and iteration lines take
    turns. *)
Lemma alternation h :
  (forall p, prefix p h ->
     (count is_cycle p <= count is_resolved p <= S (count is_cycle p))%nat /\
     cycles_of p
     = map (fun k => wrap (Z.of_nat k)) (seq 0 (count is_cycle p))) ->
  outcomes_only h ->
  flat_map printed h
  = firstn (count is_resolved h + count is_cycle h)
           (tick_lines 0 (outcomes_of h)).
Proof.
  induction h as [| e h IH] using rev_ind; intros Hp Ho; [reflexivity |].
  apply outcomes_only_app in Ho. destruct Ho as [Ho He].
  assert (IH' := IH (fun p Hpp => Hp p (prefix_app_l p h [e] Hpp)) Ho).
  destruct (Hp h) as [Hc Hn]; [now exists [e] |].
  destruct (Hp (h ++ [e])) as [Hc' Hn']; [exists []; now rewrite app_nil_r |].
  pose proof (outcomes_only_length h Ho) as Hlen.
  rewrite flat_map_printed_snoc, IH', outcomes_of_app.
  repeat rewrite count_app.
  repeat rewrite count_app in Hc'. repeat rewrite count_app in Hn'.
  rewrite cycles_of_app in Hn'.
  inversion He as [| ? ? He1 _]; subst.
  assert (Hfull : forall os n,
             List.length os = n ->
             List.length (tick_lines 0 os) = (n + n)%nat).
  { intros os n <-. rewrite tick_lines_length. lia. }
  destruct e;
    cbn -[firstn tick_lines String.append Sprintf_d wrap Z.of_nat seq] in *;
    rewrite ?Nat.add_0_r, ?app_nil_r in *; try reflexivity.
  - (* the wait of tick y is resolved *)
    destruct He1 as [o Hout]. unfold reported. rewrite Hout.
    assert (Hy : count is_resolved h = count is_cycle h) by lia.
    rewrite Hy in *.
    rewrite tick_lines_app, Hlen.
    change (tick_lines (0 + count is_cycle h) [o])
      with [report o; iteration_line (count is_cycle h)].
    replace (count is_cycle h + 1 + count is_cycle h)%nat
      with (List.length (tick_lines 0 (outcomes_of h)) + 1)%nat
      by (rewrite (Hfull _ _ Hlen); lia).
    rewrite firstn_app_2.
    rewrite firstn_all2 by (rewrite (Hfull _ _ Hlen); lia).
    reflexivity.
  - (* tick y is completed *)
    assert (Hy : count is_resolved h = S (count is_cycle h)) by lia.
    rewrite Hy in *.
    rewrite Nat.add_1_r, seq_S, map_app, Hn in Hn'.
    apply app_inv_head in Hn'. injection Hn' as ->.
    destruct (outcomes_of h) as [| o os] using rev_ind;
      [cbn in Hlen; lia |].
    clear IHos. rewrite length_app in Hlen. cbn [List.length] in Hlen.
    assert (Hl : List.length os = count is_cycle h) by lia.
    rewrite tick_lines_app, Hl.
    change (tick_lines (0 + count is_cycle h) [o])
      with [report o; iteration_line (count is_cycle h)].
    replace (S (count is_cycle h) + count is_cycle h)%nat
      with (List.length (tick_lines 0 os) + 1)%nat
      by (rewrite (Hfull _ _ Hl); lia).
    replace (S (count is_cycle h) + (count is_cycle h + 1))%nat
      with (List.length (tick_lines 0 os) + 2)%nat
      by (rewrite (Hfull _ _ Hl); lia).
    rewrite !firstn_app_2. cbn [firstn].
    rewrite <- app_assoc. reflexivity.
Qed.

(** X7. The standard output of a ticker.  With no channel closed, what
    [RunCycle] and the [handleResponse] of its ticks have written so far is
    the report of the first publish, [Iteration #0], the report of the second
    publish, [Iteration #1], and so on: one report and one iteration line per
    tick, in this order, the line of the tick in progress still missing where
    its report is the last thing written. *)
Theorem ticker_output T t0 st acts m :
  exec T (RunCycle t0 st) acts = Some m ->
  no_close acts ->
  let h := history m in
  rev (stdout m)
  = firstn (List.length (stdout m)) (tick_lines 0 (outcomes_of h)) /\
  List.length (stdout m) = (count is_resolved h + count is_cycle h)%nat /\
  List.length (outcomes_of h) = count is_resolved h /\
  (count is_cycle h <= count is_resolved h <= S (count is_cycle h))%nat.
Proof.
  intros He Hn h.
  assert (Ho : outcomes_only h).
  { eapply no_close_exec; [exact Hn | | | exact He]; reflexivity. }
  assert (Hp : forall p, prefix p h ->
     (count is_cycle p <= count is_resolved p <= S (count is_cycle p))%nat /\
     cycles_of p
     = map (fun k => wrap (Z.of_nat k)) (seq 0 (count is_cycle p))).
  { intros p Hpp.
    apply (history_prefixes T (RunCycle t0 st)
             (fun p =>
                (count is_cycle p <= count is_resolved p
                 <= S (count is_cycle p))%nat /\
                cycles_of p
                = map (fun k => wrap (Z.of_nat k))
                      (seq 0 (count is_cycle p))))
      with (acts := acts) (m := m); try assumption; [reflexivity |].
    intros acts0 m0 He0. split.
    - assert (Ht : tick_order (history m0)).
      { apply (tick_order_always T t0 st acts0 m0); [exact He0 |].
        exists []. now rewrite app_nil_r. }
      unfold tick_order in Ht. cbv zeta in Ht. lia.
    - now apply (numbering_exec T t0 st acts0). }
  pose proof (alternation h Hp Ho) as Ha.
  pose proof (printed_exec T (RunCycle t0 st) acts m eq_refl eq_refl He) as Hs.
  fold h in Hs.
  pose proof (outcomes_only_length h Ho) as Hl.
  destruct (Hp h) as [Hc _]; [exists []; now rewrite app_nil_r |].
  assert (Hlen : List.length (stdout m)
                 = (count is_resolved h + count is_cycle h)%nat).
  { rewrite <- length_rev, Hs, Ha, length_firstn, tick_lines_length, Hl. lia. }
  repeat split; try assumption; try lia.
  now rewrite Hlen, Hs.
Qed.

Lemma ticker_output_witness :
  exists m,
    exec 20 (RunCycle 0 MSFT) first_tick = Some m /\
    rev (stdout m) = [report (Success "[1,Sent]"); iteration_line 0].
Proof.
  assert (He : exists m,
    exec 20 (RunCycle 0 MSFT) first_tick = Some m /\
    List.length (stdout m) = 2%nat /\
    outcomes_of (history m) = [Success "[1,Sent]"]).
  { eexists. split; [vm_compute; reflexivity | split; reflexivity]. }
  destruct He as (m & He & Hl & Ho). exists m. split; [exact He |].
  assert (Hn : no_close first_tick) by (repeat constructor).
  destruct (ticker_output 20 0 MSFT first_tick m He Hn) as [H _].
  rewrite H, Hl, Ho. reflexivity.
Defined.

(** ** What the bootstrap prints *)

Lemma no_cycle_step T m a m' :
  loop m = LoopOff /\ Forall (fun e => is_cycle e = false) (trace m) ->
  step T m a = Some m' ->
  loop m' = LoopOff /\ Forall (fun e => is_cycle e = false) (trace m').
Proof.
  intros [Hl Hf] H.
  break_step H; cbn; try (split; [assumption | auto]); try congruence.
Qed.

Lemma printed_reports h :
  Forall (fun e => is_cycle e = false) h ->
  flat_map printed h = map report (outcomes_of h).
Proof.
  induction h as [| e h IH]; intros Hf; [reflexivity |].
  inversion Hf as [| ? ? He Hh]; subst.
  destruct e; cbn -[report]; auto; try discriminate.
  unfold reported. destruct (outcome_of i); cbn -[report]; now rewrite IH.
Qed.

Lemma count_calls_of h : count is_call h = List.length (calls_of h).
Proof.
  induction h as [| e h IH]; [reflexivity |].
  destruct e; cbn; auto.
Qed.

Lemma outcomes_of_length h :
  (List.length (outcomes_of h) <= count is_resolved h)%nat.
Proof.
  induction h as [| e h IH]; [cbn; lia |].
  destruct e; cbn; auto.
  destruct (outcome_of i); cbn; lia.
Qed.

(** X8. The standard output of the bootstrap.  [SetUpChannelGroup] and
    [GrantPermissions] print nothing but the reports of their rounds' Outcomes,
    one line each in the order of the rounds: at most seven lines, and exactly
    seven once [GrantPermissions] has returned and no channel was closed. *)
Theorem bootstrap_output auths stocks T t0 acts m :
  exec T (bootstrap auths stocks T t0) acts = Some m ->
  let h := history m in
  rev (stdout m) = map report (outcomes_of h) /\
  (List.length (stdout m) <= count is_call h <= 7)%nat /\
  (no_close acts -> body m = [] -> List.length (stdout m) = 7%nat).
Proof.
  intros He h.
  assert (Hf : Forall (fun e => is_cycle e = false) h).
  { assert (G : loop m = LoopOff /\
                Forall (fun e => is_cycle e = false) (trace m)).
    { revert He.
      apply (exec_invariant T
               (fun m => loop m = LoopOff /\
                         Forall (fun e => is_cycle e = false) (trace m))).
      - intros m0 a m1. apply no_cycle_step.
      - split; [reflexivity | constructor]. }
    destruct G as [_ G]. unfold h, history.
    apply Forall_forall. intros e Hin. apply in_rev in Hin.
    revert e Hin. now apply Forall_forall. }
  pose proof (printed_exec T (bootstrap auths stocks T t0) acts m
                eq_refl eq_refl He) as Hs.
  fold h in Hs. rewrite (printed_reports h Hf) in Hs.
  destruct (bootstrap_reaches_rounds_inv _ _ _ _ _ _ He) as [Hr _].
  pose proof (rounds_inv_counts m Hr) as Hc. cbv zeta in Hc. fold h in Hc.
  pose proof (rounds_calls_exec T acts _ m (bootstrap_rounds_inv _ _ _ _) He)
    as Hcalls.
  fold h in Hcalls.
  assert (Hlen : List.length (stdout m) = List.length (outcomes_of h)).
  { now rewrite <- length_rev, Hs, length_map. }
  assert (Hplan : (List.length (calls_of h)
                   + List.length (requests_of (body m)) = 7)%nat).
  { rewrite <- length_app, Hcalls. reflexivity. }
  pose proof (outcomes_of_length h) as Hle.
  rewrite count_calls_of in *.
  split; [exact Hs | split; [lia |]].
  intros Hn Hb.
  assert (Ho : outcomes_only h).
  { eapply no_close_exec; [exact Hn | | | exact He]; reflexivity. }
  rewrite Hlen, (outcomes_only_length h Ho).
  rewrite Hb in Hplan. cbn in Hplan.
  unfold rounds_inv in Hr. cbv zeta in Hr. rewrite Hb in Hr.
  destruct Hr as (_ & _ & Hr).
  destruct (awaiter m) as [[g a] |]; [contradiction |].
  destruct Hr as (_ & Hcd & _ & _ & Hrd).
  unfold h, history. rewrite count_rev, Hrd, <- Hcd, <- (count_rev is_call).
  fold (history m). fold h. rewrite count_calls_of. lia.
Qed.

Lemma bootstrap_output_witness :
  let auths := mkAuths "pub" "sub" "sec" "auth" in
  let stocks := [mkStock "MSFT" 100 0 10 20 10 500;
                 mkStock "ORCL" 50 0 10 20 10 500] in
  let acts := bootstrap_schedule (Success "ok") Timeout (Failure "denied")
                (Success "ok") (Success "ok") Timeout (Success "ok") in
  exists m,
    exec 20 (bootstrap auths stocks 20 0) acts = Some m /\
    List.length (stdout m) = 7%nat.
Proof.
  intros auths stocks acts.
  assert (He : exists m,
    exec 20 (bootstrap auths stocks 20 0) acts = Some m /\ body m = []).
  { eexists. split; [vm_compute; reflexivity | reflexivity]. }
  destruct He as (m & He & Hb). exists m. split; [exact He |].
  assert (Hn : no_close acts) by (repeat constructor).
  exact (proj2 (proj2 (bootstrap_output auths stocks 20 0 acts m He)) Hn Hb).
Defined.

(** ** Calls whose reply nobody receives *)

Lemma In_remove_nth {A} (x y : A) k l :
  In x l -> nth_error l k = Some y -> x <> y -> In x (remove_nth k l).
Proof.
  revert k. induction l as [| z l IH]; intros k Hin Hn Hxy; [destruct Hin |].
  destruct k as [| k]; cbn in *.
  - injection Hn as ->. destruct Hin as [-> | Hin]; [contradiction | exact Hin].
  - destruct Hin as [-> | Hin]; [now left | right; eauto].
Qed.

Lemma remove_nth_length {A} k (l : list A) y :
  nth_error l k = Some y -> S (List.length (remove_nth k l)) = List.length l.
Proof.
  revert k. induction l as [| z l IH]; intros k Hn; [destruct k; discriminate |].
  destruct k as [| k]; cbn in *; [reflexivity |].
  f_equal. eauto.
Qed.

Lemma stale_call_step T m a m' g r :
  cycle_inv T m -> In (g, r) (calls m) -> (g < chans m)%nat ->
  step T m a = Some m' ->
  In (g, r) (calls m') /\ (g < chans m')%nat.
Proof.
  unfold cycle_inv, awaiter_inv. intros Hinv Hin Hlt H.
  break_step H; cbn; try (split; [auto | lia]); try (split; [now right | lia]).
  destruct Hinv as [[-> _] _].
  apply andb_prop in Heqb0. destruct Heqb0 as [Hg _].
  apply Nat.eqb_eq in Hg. subst.
  eapply In_remove_nth; [exact Hin | eassumption |].
  intros [= -> _]. lia.
Qed.

Lemma calls_account_step T m a m' :
  (List.length (calls m) + count is_answer (trace m))%nat
  = count is_call (trace m) ->
  step T m a = Some m' ->
  (List.length (calls m') + count is_answer (trace m'))%nat
  = count is_call (trace m').
Proof.
  intros Hinv H.
  break_step H; awaiter_facts; cbn; try lia.
  - pose proof (remove_nth_length _ _ _ Heqo) as Hl.
    destruct ok; cbn; lia.
  - destruct side; cbn; lia.
Qed.

(** X9. A publish whose reply did not come in time is never completed.
    The calls still pending are the calls issued less those whose reply ended
    a wait; and a call that is pending when a later tick has made its channels
    stays pending in every continuation: each tick listens on its own
    channels only, so the reply is never received. *)
Theorem late_reply_never_received T t0 st acts m :
  exec T (RunCycle t0 st) acts = Some m ->
  (List.length (calls m) + count is_answer (history m))%nat
  = count is_call (history m) /\
  (forall g r,
     In (g, r) (calls m) -> (g < chans m)%nat ->
     forall acts' m', exec T m acts' = Some m' -> In (g, r) (calls m')).
Proof.
  intros He. split.
  - unfold history. rewrite !count_rev. revert He.
    apply (exec_invariant T
             (fun m => (List.length (calls m) + count is_answer (trace m))%nat
                       = count is_call (trace m))).
    + intros m0 a m1. apply calls_account_step.
    + reflexivity.
  - intros g r Hin Hlt acts' m' He'.
    pose proof (cycle_inv_exec T t0 st acts m He) as Hinv.
    assert (G : cycle_inv T m' /\ In (g, r) (calls m') /\ (g < chans m')%nat).
    { revert He'.
      apply (exec_invariant T
               (fun m => cycle_inv T m /\ In (g, r) (calls m) /\
                         (g < chans m)%nat)); [| auto].
      intros m0 a m1 (Hc & Hi & Hl) Hs. split.
      - eapply cycle_inv_step; eauto.
      - eapply stale_call_step; eauto. }
    tauto.
Qed.

Lemma late_reply_never_received_witness :
  exists m m',
    exec 20 (RunCycle 0 MSFT) timed_out_tick = Some m /\
    exec 20 m [Run first_inputs; Run first_inputs; Run first_inputs;
               Advance 20000; Run first_inputs; Enter;
               Answer 0 true "[1,Sent]"] = Some m' /\
    In (1%nat, Publish "MSFT" first_message) (calls m').
Proof.
  assert (He : exists m m',
    exec 20 (RunCycle 0 MSFT) timed_out_tick = Some m /\
    exec 20 m [Run first_inputs; Run first_inputs; Run first_inputs;
               Advance 20000; Run first_inputs; Enter;
               Answer 0 true "[1,Sent]"] = Some m' /\
    In (1%nat, Publish "MSFT" first_message) (calls m) /\
    (1 < chans m)%nat).
  { eexists. eexists. split; [vm_compute; reflexivity |].
    split; [vm_compute; reflexivity |].
    split; [vm_compute; now left | vm_compute; lia]. }
  destruct He as (m & m' & He & He' & Hin & Hlt). exists m, m'.
  split; [exact He |]. split; [exact He' |].
  exact (proj2 (late_reply_never_received 20 0 MSFT _ m He)
               _ _ Hin Hlt _ m' He').
Defined.

Lemma step_answer_at T m g t d r k ok payload :
  crashed m = false -> awaiter m = Some (g, mkAwaiter t (HSelect d)) ->
  nth_error (calls m) k = Some (g, r) -> is_closed g ok m = false ->
  step T m (Answer k ok payload)
  = Some (m |> set_awaiter (Some (g, mkAwaiter t HFinish))
            |> print (reported (received ok (Value payload)))
            |> set_calls (remove_nth k (calls m))
            |> emit (EvResolved (now m) (received ok (Value payload)))).
Proof.
  intros Hc Ha Hn Hcl. unfold step, deliver.
  rewrite Hc, Ha, Hn, Hcl, Nat.eqb_refl. cbn [andb negb].
  rewrite handleResponse_takes; [reflexivity | now destruct ok |].
  intros now0 H. destruct ok; discriminate H.
Qed.

(** The state after a step, as a record. *)
Ltac tidy :=
  cbv [set_now set_stock set_streamMessage set_loop set_body set_chans
       set_closed set_calls set_awaiter set_stdout set_trace set_crashed
       emit print now stock streamMessage loop body chans closed calls
       awaiter stdout trace crashed rev app remove_nth].

Ltac next_by lemma :=
  cbn [exec]; erewrite lemma; [tidy | reflexivity ..].

(** X10. The two rounds of [SetUpChannelGroup] wait on the same pair of
    channels, so a reply can be taken for the wrong call.  Whatever the
    configuration, there is an execution in which the wait for
    [ChannelGroupRemoveGroup] times out, its reply comes once the
    [handleResponse] of [ChannelGroupAddChannel] waits, and is reported as the
    Outcome of the second round, whose own call is still pending. *)
Theorem late_reply_taken_for_next_call auths stocks T t0 ok payload :
  exists m,
    exec T (bootstrap auths stocks T t0) (late_reply_schedule ok payload)
    = Some m /\
    calls_of (history m)
    = [ChannelGroupRemoveGroup CHANNEL_GROUP;
       ChannelGroupAddChannel CHANNEL_GROUP (stockNames stocks)] /\
    outcomes_of (history m)
    = [Timeout; if ok then Success payload else Failure payload] /\
    calls m
    = [(1%nat, ChannelGroupAddChannel CHANNEL_GROUP (stockNames stocks))] /\
    rev (stdout m)
    = [report Timeout;
       report (if ok then Success payload else Failure payload)].
Proof.
  unfold late_reply_schedule, round_schedule, bootstrap, boot,
    SetUpChannelGroup, GrantPermissions.
  cbn [resolve app].
  next_by step_make_chans. next_by step_go_request. next_by step_go_await.
  next_by step_enter.
  cbn [exec].
  rewrite step_advance by (try reflexivity; unfold Second, Nanosecond; lia).
  tidy. cbn [exec].
  erewrite step_fire; [tidy | reflexivity | reflexivity | cbv [now]; lia].
  next_by step_recv_done. next_by step_go_request. next_by step_go_await.
  next_by step_enter. next_by step_answer_at.
  eexists; split; [reflexivity |].
  unfold history. tidy.
  destruct ok; cbn [calls_of outcomes_of outcome_of received reported];
    auto.
Qed.

(** ** The whole program *)

Lemma nth_error_replace_nth {A} i j (x : A) l :
  nth_error (replace_nth i x l) j
  = if Nat.eqb i j
    then match nth_error l j with Some _ => Some x | None => None end
    else nth_error l j.
Proof.
  revert i j. induction l as [| y l IH]; intros i j.
  - destruct i, j; cbn; try reflexivity; now destruct (Nat.eqb i j).
  - destruct i as [| i], j as [| j]; cbn; try reflexivity. apply IH.
Qed.

Lemma replace_nth_length {A} i (x : A) l :
  List.length (replace_nth i x l) = List.length l.
Proof.
  revert i. induction l as [| y l IH]; intros [| i]; cbn; auto.
Qed.

Lemma running_not_crashed w i m :
  world_crashed w = false -> nth_error (tickers w) i = Some (Running m) ->
  crashed m = false.
Proof.
  unfold world_crashed. intros Hc Hn.
  apply orb_false_iff in Hc. destruct Hc as [_ Hc].
  destruct (crashed m) eqn:E; [| reflexivity].
  assert (Hex : existsb ticker_crashed (tickers w) = true).
  { apply existsb_exists. exists (Running m). split; [| exact E].
    eapply nth_error_In; eassumption. }
  congruence.
Qed.

Lemma body_stays_empty T m a m' :
  step T m a = Some m' -> loop m = LoopOff -> body m = [] -> body m' = [].
Proof.
  intros H Hl Hb. break_step H; cbn; try assumption; congruence.
Qed.

Lemma exec_step_last T m acts m1 a m2 :
  exec T m acts = Some m1 -> step T m1 a = Some m2 ->
  exec T m (acts ++ [a]) = Some m2.
Proof.
  intros He Hs. rewrite exec_app, He. cbn. now rewrite Hs.
Qed.

Lemma world_inv_step auths stocks T t0 w a w' :
  let inv w :=
    (exists sa, exec T (bootstrap auths stocks T t0) sa = Some (setup w)) /\
    main_ok stocks w /\
    (forall i t, nth_error (tickers w) i = Some t -> ticker_ok stocks T w i t) in
  inv w -> world_step stocks T w a = Some w' -> inv w'.
Proof.
  cbv zeta. intros (Hs & Hm & Ht) H. unfold world_step in H.
  destruct (world_crashed w) eqn:Hc; [discriminate |].
  assert (Hcs : crashed (setup w) = false).
  { unfold world_crashed in Hc. now apply orb_false_iff in Hc. }
  destruct a as [d | a | | i | i a].
  - (* time passes *)
    destruct (Z.leb_spec 0 d) as [Hd |]; [| discriminate].
    injection H as <-. cbn. split; [| split].
    + destruct Hs as (sa & Hs). exists (sa ++ [Advance d]).
      eapply exec_step_last; [exact Hs |]. now apply step_advance.
    + unfold main_ok in *. cbn. rewrite length_map.
      destruct (main_at w); try assumption.
      now destruct (tickers w).
    + intros i t Hn. rewrite nth_error_map in Hn.
      destruct (nth_error (tickers w) i) as [t' |] eqn:Hn'; [| discriminate].
      injection Hn as <-.
      destruct (Ht i t' Hn') as (st & Hst & Hok). exists st.
      split; [exact Hst |].
      destruct t' as [st' | m]; cbn; [exact Hok |].
      destruct Hok as (Hnow & t1 & ta & He).
      split; [now rewrite Hnow |].
      exists t1, (ta ++ [Advance d]).
      eapply exec_step_last; [exact He |]. apply step_advance; [| exact Hd].
      eapply running_not_crashed; eassumption.
  - (* the bootstrap moves *)
    destruct (is_advance a) eqn:Ha; [discriminate |].
    destruct (step T (setup w) a) as [m' |] eqn:Hstep; [| discriminate].
    injection H as <-. cbn.
    assert (Hnow : now m' = now (setup w)).
    { clear - Hstep Ha. break_step Hstep; cbn; try reflexivity; discriminate. }
    split; [| split].
    + destruct Hs as (sa & Hs). exists (sa ++ [a]).
      eapply exec_step_last; eassumption.
    + destruct Hs as (sa & Hs).
      destruct (bootstrap_reaches_rounds_inv _ _ _ _ _ _ Hs) as [Hr _].
      destruct Hr as (_ & Hl & _).
      unfold main_ok in *. cbn.
      destruct (main_at w); try assumption;
        intuition (eauto using body_stays_empty).
    + intros i t Hn. destruct (Ht i t Hn) as (st & Hst & Hok).
      exists st. split; [exact Hst |].
      destruct t; cbn; [exact Hok |]. now rewrite Hnow.
  - (* main goes on *)
    unfold main_next in H. unfold main_ok in Hm.
    destruct (main_at w) as [| k | |] eqn:Hat; try discriminate.
    + destruct (body (setup w)) eqn:Hb; [| discriminate].
      injection H as <-. cbn. split; [exact Hs | split].
      * unfold main_ok. cbn. rewrite Hm. cbn. repeat split; [lia | exact Hb].
      * exact Ht.
    + destruct Hm as (Hlen & Hle & Hb).
      destruct (nth_error stocks k) as [st |] eqn:Hk; injection H as <-; cbn.
      * split; [exact Hs | split].
        -- unfold main_ok. cbn. rewrite length_app. cbn.
           repeat split; [lia | | exact Hb].
           assert (k < List.length stocks)%nat; [| lia].
           apply nth_error_Some. congruence.
        -- intros i t Hn.
           destruct (Nat.lt_ge_cases i (List.length (tickers w))) as [Hi | Hi].
           ++ rewrite nth_error_app1 in Hn by exact Hi.
              destruct (Ht i t Hn) as (st' & Hst & Hok).
              exists st'. split; [exact Hst |]. destruct t; exact Hok.
           ++ rewrite nth_error_app2 in Hn by exact Hi.
              destruct (i - List.length (tickers w))%nat as [| j] eqn:Hj;
                [| destruct j; discriminate].
              injection Hn as <-. exists st. split; [| reflexivity].
              replace i with k by lia. exact Hk.
      * split; [exact Hs | split].
        -- unfold main_ok. cbn. split; [| exact Hb].
           apply nth_error_None in Hk. lia.
        -- exact Ht.
  - (* a goroutine of RunStocks starts *)
    destruct (nth_error (tickers w) i) as [[st | m] |] eqn:Hn;
      try discriminate.
    injection H as <-. cbn. split; [exact Hs | split].
    + unfold main_ok in *. cbn. rewrite replace_nth_length.
      destruct (main_at w); try assumption.
      rewrite Hm in Hn. destruct i; discriminate.
    + intros j t Hj. rewrite nth_error_replace_nth in Hj.
      destruct (Nat.eqb_spec i j) as [<- | Hne].
      * rewrite Hn in Hj. injection Hj as <-.
        destruct (Ht i _ Hn) as (st' & Hst & ->).
        exists st'. split; [exact Hst |]. split; [reflexivity |].
        exists (now (setup w)), []. reflexivity.
      * destruct (Ht j t Hj) as (st' & Hst & Hok).
        exists st'. split; [exact Hst |]. destruct t; exact Hok.
  - (* a goroutine of a ticker moves *)
    destruct (is_advance a) eqn:Ha; [discriminate |].
    destruct (nth_error (tickers w) i) as [[st | m] |] eqn:Hn;
      try discriminate.
    destruct (step T m a) as [m' |] eqn:Hstep; [| discriminate].
    injection H as <-. cbn.
    assert (Hnow : now m' = now m).
    { clear - Hstep Ha. break_step Hstep; cbn; try reflexivity; discriminate. }
    split; [exact Hs | split].
    + unfold main_ok in *. cbn. rewrite replace_nth_length.
      destruct (main_at w); try assumption.
      rewrite Hm in Hn. destruct i; discriminate.
    + intros j t Hj. rewrite nth_error_replace_nth in Hj.
      destruct (Nat.eqb_spec i j) as [<- | Hne].
      * rewrite Hn in Hj. injection Hj as <-.
        destruct (Ht i _ Hn) as (st' & Hst & Hnow' & t1 & ta & He).
        exists st'. split; [exact Hst |]. split; [cbn in *; congruence |].
        exists t1, (ta ++ [a]). eapply exec_step_last; eassumption.
      * destruct (Ht j t Hj) as (st' & Hst & Hok).
        exists st'. split; [exact Hst |]. destruct t; exact Hok.
Qed.

Lemma world_inv_exec auths stocks T t0 acts : forall w w',
  let inv w :=
    (exists sa, exec T (bootstrap auths stocks T t0) sa = Some (setup w)) /\
    main_ok stocks w /\
    (forall i t, nth_error (tickers w) i = Some t -> ticker_ok stocks T w i t) in
  inv w -> world_exec stocks T w acts = Some w' -> inv w'.
Proof.
  cbv zeta. induction acts as [| a acts IH]; intros w w' Hinv H; cbn in H.
  - now injection H as <-.
  - destruct (world_step stocks T w a) as [w1 |] eqn:Hs; [| discriminate].
    eapply IH; [| exact H].
    exact (world_inv_step auths stocks T t0 w a w1 Hinv Hs).
Qed.

Lemma main_inv auths stocks T t0 acts w :
  world_exec stocks T (main auths stocks T t0) acts = Some w ->
  (exists sa, exec T (bootstrap auths stocks T t0) sa = Some (setup w)) /\
  main_ok stocks w /\
  (forall i t, nth_error (tickers w) i = Some t -> ticker_ok stocks T w i t).
Proof.
  apply (world_inv_exec auths stocks T t0 acts).
  split; [exists []; reflexivity | split; [reflexivity |]].
  intros i t Hn. destruct i; discriminate.
Qed.

(** X11. The program as a whole.  In every state [main] reaches after
    [LoadConfig]: the bootstrap is an execution of
    [SetUpChannelGroup(); GrantPermissions()]; [main] never returns from
    [RunStocks] (so the [ServeHttp] of the variant is never called); no
    goroutine of [RunStocks] exists before [GrantPermissions] has returned
    with all seven operations issued; the goroutines started are those of the
    first stocks of the configuration, in order, each about to start or in an
    execution of [RunCycle] on its own copy of its stock, reading the clock of
    the program: what holds of every execution of [RunCycle] holds of
    every ticker of the program. *)
Theorem program_structure auths stocks T t0 acts w :
  world_exec stocks T (main auths stocks T t0) acts = Some w ->
  (exists sa, exec T (bootstrap auths stocks T t0) sa = Some (setup w)) /\
  main_at w <> Returned /\
  main_ok stocks w /\
  (tickers w <> [] ->
   body (setup w) = [] /\
   calls_of (history (setup w)) = bootstrap_plan auths stocks) /\
  (forall i t, nth_error (tickers w) i = Some t -> ticker_ok stocks T w i t).
Proof.
  intros He. destruct (main_inv auths stocks T t0 acts w He) as (Hs & Hm & Ht).
  split; [exact Hs | split; [| split; [exact Hm | split; [| exact Ht]]]].
  - unfold main_ok in Hm. intros E. now rewrite E in Hm.
  - intros Hne.
    assert (Hb : body (setup w) = []).
    { unfold main_ok in Hm. destruct (main_at w); try tauto. }
    split; [exact Hb |].
    destruct Hs as (sa & Hs).
    pose proof (rounds_calls_exec T sa _ _ (bootstrap_rounds_inv _ _ _ _) Hs)
      as Hc.
    rewrite Hb in Hc. cbn [requests_of] in Hc. rewrite app_nil_r in Hc.
    rewrite Hc. reflexivity.
Qed.

Lemma program_structure_witness :
  let auths := mkAuths "pub" "sub" "sec" "auth" in
  let stocks := [MSFT; mkStock "ORCL" 50 0 10 20 10 500] in
  exists w,
    world_exec stocks 20 (main auths stocks 20 0) two_stocks_schedule
    = Some w /\
    main_at w = AtDone /\
    calls_of (history (setup w)) = bootstrap_plan auths stocks.
Proof.
  intros auths stocks.
  assert (He : exists w,
    world_exec stocks 20 (main auths stocks 20 0) two_stocks_schedule
    = Some w /\
    main_at w = AtDone /\ tickers w <> []).
  { eexists. split; [vm_compute; reflexivity |].
    split; [reflexivity | discriminate]. }
  destruct He as (w & He & Hat & Hne). exists w.
  split; [exact He |]. split; [exact Hat |].
  destruct (program_structure auths stocks 20 0 _ w He)
    as (_ & _ & _ & H & _).
  exact (proj2 (H Hne)).
Defined.

(** ** A stock whose price cannot be drawn *)

Lemma UpdateValues_no_draw s clock sample1 sample2 :
  is_int (Volatility s) -> ~ 0 < Volatility s < 1000 ->
  UpdateValues s clock sample1 sample2 = None.
Proof.
  intros Hi Hv.
  destruct (UpdateValues s clock sample1 sample2) as [[msg s'] |] eqn:E;
    [| reflexivity].
  pose proof (UpdateValues_volatility _ _ _ _ _ _ Hi E). contradiction.
Qed.

Lemma before_first_update_step T st m a m' :
  is_int (Volatility st) -> ~ 0 < Volatility st < 1000 ->
  before_first_update T st m -> step T m a = Some m' ->
  before_first_update T st m'.
Proof.
  unfold before_first_update. intros Hi Hv (Hst & Hca & Hco & Hinv) H.
  assert (Hc : crashed m = false).
  { unfold step in H. destruct (crashed m); [discriminate | reflexivity]. }
  destruct (Hinv Hc) as (Htr & Haw & Hb). clear Hinv.
  assert (Hu : forall c s1 s2, UpdateValues (stock m) c s1 s2 = None).
  { intros. rewrite Hst. now apply UpdateValues_no_draw. }
  destruct Hb as [[Hb Hl] | [Hb Hl]];
    break_step H; cbn;
    try match goal with
        | E : UpdateValues _ _ _ _ = Some _ |- _ => rewrite Hu in E
        end;
    try discriminate; try (unfold UpdateValuesAndPublish in *; congruence);
    (split; [reflexivity |]); (split; [assumption |]);
    (split; [assumption |]); intros Hc'; try discriminate Hc';
    (split; [assumption |]); (split; [assumption |]);
    first [left; split; [assumption | congruence]
          | right; split; [assumption | congruence]
          | right; split; [reflexivity | congruence]].
Qed.

Lemma before_first_update_exec T t1 st acts m :
  is_int (Volatility st) -> ~ 0 < Volatility st < 1000 ->
  exec T (RunCycle t1 st) acts = Some m -> before_first_update T st m.
Proof.
  intros Hi Hv.
  apply (exec_invariant T (before_first_update T st)).
  - intros m0 a m1. now apply before_first_update_step.
  - split; [reflexivity |]. split; [reflexivity |]. split; [reflexivity |].
    intros _. cbn. auto.
Qed.

Lemma world_step_go stocks T w i a m m' :
  world_crashed w = false -> nth_error (tickers w) i = Some (Running m) ->
  is_advance a = false -> step T m a = Some m' ->
  world_step stocks T w (Go i a)
  = Some (mkWorld (main_at w) (setup w)
                  (replace_nth i (Running m') (tickers w)) (startups w)).
Proof.
  intros Hc Hn Ha Hs. unfold world_step. now rewrite Hc, Ha, Hn, Hs.
Qed.

Lemma world_crashed_at w i m :
  nth_error (tickers w) i = Some (Running m) -> crashed m = true ->
  world_crashed w = true.
Proof.
  intros Hn Hc. unfold world_crashed. apply orb_true_iff. right.
  apply existsb_exists. exists (Running m). split; [| exact Hc].
  eapply nth_error_In; eassumption.
Qed.

Lemma world_crashed_replace w i t m :
  world_crashed w = false -> nth_error (tickers w) i = Some t ->
  crashed m = false ->
  world_crashed (mkWorld (main_at w) (setup w)
                         (replace_nth i (Running m) (tickers w))
                         (startups w)) = false.
Proof.
  unfold world_crashed. cbn. intros Hc Hn Hm.
  apply orb_false_iff in Hc. destruct Hc as [Hs Hc].
  apply orb_false_iff. split; [exact Hs |].
  destruct (existsb ticker_crashed (replace_nth i (Running m) (tickers w)))
    eqn:E; [| reflexivity].
  apply existsb_exists in E. destruct E as (t' & Hin & Ht').
  apply In_nth_error in Hin. destruct Hin as [j Hj].
  rewrite nth_error_replace_nth in Hj.
  destruct (Nat.eqb i j).
  - destruct (nth_error (tickers w) j); [| discriminate].
    injection Hj as <-. cbn in Ht'. congruence.
  - assert (Hex : existsb ticker_crashed (tickers w) = true).
    { apply existsb_exists. exists t'. split; [| exact Ht'].
      eapply nth_error_In; eassumption. }
    congruence.
Qed.

(** A ticker of such a stock, not yet in its update, is one or two steps
    from its panic. *)
Lemma panic_ahead stocks T w i m st :
  is_int (Volatility st) -> ~ 0 < Volatility st < 1000 ->
  world_crashed w = false -> nth_error (tickers w) i = Some (Running m) ->
  before_first_update T st m ->
  exists acts w',
    world_exec stocks T w acts = Some w' /\ (List.length acts <= 2)%nat /\
    world_crashed w' = true.
Proof.
  intros Hi Hv Hc Hn (Hst & _ & _ & Hinv).
  pose proof (running_not_crashed w i m Hc Hn) as Hm.
  destruct (Hinv Hm) as (_ & _ & [[Hb Hl] | [Hb Hl]]).
  - exists [Go i Spawn; Go i (Run no_inputs)]. eexists. cbn [world_exec].
    rewrite (world_step_go stocks T w i Spawn m _ Hc Hn eq_refl
               (step_spawn T m 0 Hm Hl Hb)).
    pose proof (world_crashed_replace w i (Running m)
                  (m |> set_body (UpdateValuesAndPublish T)
                     |> set_loop (LoopRecv 0)) Hc Hn Hm) as Hc1.
    erewrite world_step_go;
      [| exact Hc1
       | cbn [tickers]; rewrite nth_error_replace_nth, Nat.eqb_refl, Hn;
         reflexivity
       | reflexivity
       | eapply step_update_panic;
         [exact Hm | reflexivity
          | cbn [stock set_body set_loop]; rewrite Hst;
            now apply UpdateValues_no_draw]].
    split; [reflexivity | split; [cbn; lia |]].
    eapply (world_crashed_at _ i);
      [cbn [tickers]; rewrite nth_error_replace_nth, Nat.eqb_refl;
       rewrite nth_error_replace_nth, Nat.eqb_refl, Hn; reflexivity
      | reflexivity].
  - exists [Go i (Run no_inputs)]. eexists. cbn [world_exec].
    rewrite (world_step_go stocks T w i (Run no_inputs) m _ Hc Hn eq_refl
               (step_update_panic T m no_inputs _ Hm Hb
                  (eq_trans (f_equal (fun s => UpdateValues s _ _ _) Hst)
                            (UpdateValues_no_draw st _ _ _ Hi Hv)))).
    split; [reflexivity | split; [cbn; lia |]].
    eapply (world_crashed_at _ i);
      [cbn [tickers]; rewrite nth_error_replace_nth, Nat.eqb_refl, Hn;
       reflexivity
      | reflexivity].
Qed.

Lemma first_update_panics stocks T w i m st inp w' :
  is_int (Volatility st) -> ~ 0 < Volatility st < 1000 ->
  nth_error (tickers w) i = Some (Running m) ->
  before_first_update T st m ->
  world_step stocks T w (Go i (Run inp)) = Some w' ->
  world_crashed w' = true.
Proof.
  intros Hi Hv Hn (Hst & _ & _ & Hinv) H. unfold world_step in H.
  destruct (world_crashed w) eqn:Hc; [discriminate |].
  cbn [is_advance] in H. rewrite Hn in H.
  destruct (step T m (Run inp)) as [m' |] eqn:Hs; [| discriminate].
  injection H as <-.
  pose proof (running_not_crashed w i m Hc Hn) as Hm.
  destruct (Hinv Hm) as (_ & _ & [[Hb Hl] | [Hb Hl]]).
  - unfold step, run_stmt in Hs. rewrite Hm, Hb in Hs. discriminate.
  - rewrite (step_update_panic T m inp _ Hm Hb) in Hs
      by (rewrite Hst; now apply UpdateValues_no_draw).
    injection Hs as <-.
    eapply (world_crashed_at _ i);
      [cbn [tickers]; rewrite nth_error_replace_nth, Nat.eqb_refl, Hn;
       reflexivity
      | reflexivity].
Qed.

(** X12. One stock whose volatility admits no draw (it is not strictly
    between 0 and 1000) brings the program to a panic.  In every state of the
    program in which the goroutine of such a stock has been started and
    nothing has panicked, that goroutine has handed no call to the messaging
    client; the price update it runs next panics in one of its draws
    ([rand.Intn] or [Randn]) before a message is built; and that panic is at
    most three steps of the goroutine away.  A panic in a goroutine ends a Go
    program, and so every other stock with it. *)
Theorem bad_stock_stops_the_program auths stocks T t0 acts w i st t :
  world_exec stocks T (main auths stocks T t0) acts = Some w ->
  world_crashed w = false ->
  nth_error stocks i = Some st -> nth_error (tickers w) i = Some t ->
  is_int (Volatility st) -> ~ 0 < Volatility st < 1000 ->
  (forall m, t = Running m -> calls m = [] /\ calls_of (history m) = []) /\
  (forall inp w',
     world_step stocks T w (Go i (Run inp)) = Some w' ->
     world_crashed w' = true) /\
  exists acts' w',
    world_exec stocks T w acts' = Some w' /\ (List.length acts' <= 3)%nat /\
    world_crashed w' = true.
Proof.
  intros He Hc Hst Hn Hi Hv.
  destruct (main_inv auths stocks T t0 acts w He) as (_ & _ & Ht).
  destruct (Ht i t Hn) as (st' & Hst' & Hok).
  assert (st' = st) by congruence. subst st'.
  destruct t as [st' | m].
  - subst st'. split; [intros m [=] |]. split.
    { intros inp w' H. unfold world_step in H. rewrite Hc in H.
      cbn [is_advance] in H. rewrite Hn in H. discriminate. }
    pose proof (before_first_update_exec T (now (setup w)) st [] _ Hi Hv
                  eq_refl) as Hb.
    assert (Hc1 : world_crashed
                    (mkWorld (main_at w) (setup w)
                       (replace_nth i (Running (RunCycle (now (setup w)) st))
                                    (tickers w))
                       (("Starting up " ++ Name st ++ newline)%string
                        :: startups w)) = false)
      by exact (world_crashed_replace w i (Starting st)
                  (RunCycle (now (setup w)) st) Hc Hn eq_refl).
    destruct (panic_ahead stocks T _ i _ st Hi Hv Hc1
                ltac:(cbn [tickers];
                      rewrite nth_error_replace_nth, Nat.eqb_refl, Hn;
                      reflexivity) Hb)
      as (acts' & w' & He' & Hlen & Hw').
    exists (Start i :: acts'), w'.
    split; [| split; [cbn; lia | exact Hw']].
    cbn [world_exec]. unfold world_step at 1. rewrite Hc, Hn. exact He'.
  - destruct Hok as (_ & t1 & ta & Hm).
    pose proof (before_first_update_exec T t1 st ta m Hi Hv Hm) as Hb.
    split; [| split].
    + intros m0 [= <-]. destruct Hb as (_ & Hca & _ & Hinv).
      destruct (Hinv (running_not_crashed w i m Hc Hn)) as (Htr & _).
      split; [exact Hca |]. unfold history. now rewrite Htr.
    + intros inp w'. now apply (first_update_panics stocks T w i m st).
    + destruct (panic_ahead stocks T w i m st Hi Hv Hc Hn Hb)
        as (acts' & w' & He' & Hlen & Hw').
      exists acts', w'.
      split; [exact He' | split; [lia | exact Hw']].
Qed.

Lemma bad_stock_stops_the_program_witness :
  let auths := mkAuths "pub" "sub" "sec" "auth" in
  let stocks := [MSFT; BAD] in
  exists w acts' w',
    world_exec stocks 20 (main auths stocks 20 0) two_stocks_schedule
    = Some w /\
    world_exec stocks 20 w acts' = Some w' /\
    world_crashed w' = true.
Proof.
  intros auths stocks.
  assert (He : exists w,
    world_exec stocks 20 (main auths stocks 20 0) two_stocks_schedule
    = Some w /\
    world_crashed w = false /\
    nth_error (tickers w) 1 = Some (Starting BAD)).
  { eexists. split; [vm_compute; reflexivity |]. split; reflexivity. }
  destruct He as (w & He & Hc & Hn).
  assert (Hi : is_int (Volatility BAD)) by (vm_compute; split; discriminate).
  assert (Hv : ~ 0 < Volatility BAD < 1000) by (cbn; lia).
  destruct (bad_stock_stops_the_program auths stocks 20 0 _ w 1 BAD _
              He Hc eq_refl Hn Hi Hv)
    as (_ & _ & acts' & w' & He' & _ & Hdead).
  exists w, acts', w'. split; [exact He | split; [exact He' | exact Hdead]].
Defined.

(** ** [Roundn] on values with two decimals *)

(** X2. [Roundn] at precision 2 leaves every value with two decimals
    between -1000.00 and 1000.00 unchanged: rounding a percentage that is
    already rounded does not move it, although neither [c/100] nor its
    product with 100 is exact in binary. *)
Theorem Roundn_keeps_two_decimals (c : Z) :
  -100000 <= c <= 100000 ->
  Roundn (hundredth c) 2 = hundredth c.
Proof.
  intros Hc. apply Leibniz.eqb_spec.
  change (Roundn_keeps c = true).
  apply (all_from_spec Roundn_keeps (Z.to_nat 200001) (-100000));
    [| rewrite Z2Nat.id by lia; lia].
  vm_compute. reflexivity.
Qed.

Lemma Roundn_keeps_two_decimals_witness : Roundn (hundredth 13) 2 = 0.13%float.
Proof.
  rewrite Roundn_keeps_two_decimals by lia. reflexivity.
Defined.

